(** * Cluster administration dispatcher and quorum aggregators

    A shallow embedding of [cmd/admin-rpc-client.go]: the peer directory
    ([makeAdminPeers]), the command-runner interface with its local and
    remote implementations, and the aggregators [listPeerLocksInfo],
    [reInitPeerDisks], [getPeerUptimes], [getPeerConfig] and
    [getValidServerConfig].

    Conventions.
    - Go's [int] and [time.Duration] are modelled as [Z]; all quantities that
      occur (slice lengths, counters bounded by a slice length) stay far from
      the 64-bit limits, so no wrap-around is written out for them.  Integer
      division is Go's truncating division, [Z.quot].
    - A Go [error] value is [option error]; [None] is [nil].
    - A Go function returning [(T, error)] whose value is the zero value
      whenever the error is non-nil is modelled with [result]: [Ok v] for
      [(v, nil)], [Err e] for [(zero, e)], and [Panic] for a run-time panic
      (index out of range).
    - Goroutines that each write one private slot of a result slice and are
      joined by [wg.Wait()] are modelled by the slice they leave behind. *)

From Stdlib Require Import ZArith Lia.
From stdpp Require Import base numbers option list sorting gmap strings.

#[local] Set Warnings "-clear-no-such-hyp".

Local Open Scope Z_scope.

(** ** Errors and results *)

Inductive error : Type :=
| errServerNotInitialized
| errConfigNotPresent                 (* errors.New("config not present") *)
| errXLWriteQuorum
| InsufficientReadQuorum
| rpcError (msg : string)             (* whatever AuthRPCClient.Call returns *)
| jsonError (msg : string)            (* whatever encoding/json returns *)
| traceError (e : error).             (* traceError(e) *)

#[global] Instance error_eq_dec : EqDecision error.
Proof. solve_decision. Defined.

Inductive result (A : Type) : Type :=
| Ok (a : A)
| Err (e : error)
| Panic.
Arguments Ok {A} a.
Arguments Err {A} e.
Arguments Panic {A}.

(** ** Time *)

(** [time.Duration] is an [int64] count of nanoseconds. *)
Abbreviation Duration := Z (only parsing).

Definition minDuration : Duration := - 2 ^ 63.
Definition maxDuration : Duration := 2 ^ 63 - 1.
Definition Minute : Duration := 60 * 1000000000.

(** [time.Time] after [.UTC()]: the wall-clock instant, in nanoseconds since
    the zero [Time]. *)
Abbreviation Time := Z (only parsing).

Definition Time_IsZero (t : Time) : bool := bool_decide (t = 0).

(** [t.Sub(u)]: the difference, saturated at the bounds of [Duration]. *)
Definition Time_Sub (t u : Time) : Duration :=
  if bool_decide (t - u < minDuration) then minDuration
  else if bool_decide (maxDuration < t - u) then maxDuration
  else t - u.

(** ** Lock records, RPC arguments and replies *)

Record VolumeLockInfo : Type := {
  Bucket : string;
  Object : string;
  LocksOnObject : Z;
  LocksAcquiredOnObject : Z;
  TotalBlockedLocks : Z
}.

Record nsParam : Type := { volume : string; path : string }.

#[global] Instance nsParam_eq_dec : EqDecision nsParam.
Proof. solve_decision. Defined.

#[global] Instance nsParam_countable : Countable nsParam :=
  inj_countable' (λ p, (volume p, path p))
                 (λ q, {| volume := q.1; path := q.2 |})
                 (λ p, match p with Build_nsParam _ _ => eq_refl end).

Record ListLocksQuery : Type := {
  lq_bucket : string; lq_prefix : string; lq_duration : Duration
}.

Record credential : Type := { AccessKey : string; SecretKey : string }.

Record authConfig : Type := {
  accessKey : string;
  secretKey : string;
  serverAddr : string;
  secureConn : bool;
  serviceEndpoint : string;
  serviceName : string
}.

(** [url.URL], as far as this file reads it. *)
Record url_URL : Type := { Scheme : string; Host : string; Path : string }.

Inductive serviceSignal : Type := serviceStatus | serviceRestart | serviceStop.

(** ** Quorum thresholds, as the aggregators compute them *)

(** [len(serverConfigs)/2 + 1] in [getValidServerConfig]. *)
Definition configQuorum (n : Z) : Z := n `quot` 2 + 1.
(** [len(peers)/2 + 1] in [listPeerLocksInfo]. *)
Definition locksReadQuorum (n : Z) : Z := n `quot` 2 + 1.
(** [len(uptimes) / 2] in [getPeerUptimes]. *)
Definition uptimeReadQuorum (n : Z) : Z := n `quot` 2.

Section AdminRPCClient.

(** The configuration document [serverConfigV13] is declared elsewhere; here
    it is a value with a zero value, compared by [reflect.DeepEqual]. *)
Context {serverConfigV13 : Type} `{!EqDecision serverConfigV13}.
Variable zeroServerConfig : serverConfigV13.

Definition DeepEqual (a b : serverConfigV13) : bool := bool_decide (a = b).

(** [encoding/json]. *)
Variable json_Marshal : serverConfigV13 → list Byte.byte * option error.
Variable json_Unmarshal : list Byte.byte → serverConfigV13 + error.

(** The process and its surroundings at the time of a call: the globals the
    file reads and the outcome of every RPC it may issue. *)
Record World : Type := {
  now : Time;                                   (* time.Now().UTC() *)
  globalBootTime : Time;
  globalIsDistXL : bool;
  globalMinioAddr : string;
  globalIsSSL : bool;
  serverConfig : option serverConfigV13;        (* nil when not loaded *)
  globalServiceSignalCh : list serviceSignal;   (* signals sent so far *)
  listLocksInfo : string → string → Duration → list VolumeLockInfo;
  rpc_Restart : authConfig → option error;
  rpc_ListLocks : authConfig → ListLocksQuery →
                  list VolumeLockInfo * option error;
  rpc_ReInitDisks : authConfig → option error;
  rpc_Uptime : authConfig → Duration * option error;
  rpc_GetConfig : authConfig → list Byte.byte * option error
}.

(** ** The command runner *)

(** [adminCmdRunner]: an interface value is the record of its methods. *)
Record adminCmdRunner : Type := {
  Restart : World → World * option error;
  ListLocks : World → string → string → Duration →
              list VolumeLockInfo * option error;
  ReInitDisks : World → option error;
  Uptime : World → Duration * option error;
  GetConfig : World → list Byte.byte * option error
}.

Definition send_serviceSignal (w : World) (s : serviceSignal) : World :=
  {| now := now w; globalBootTime := globalBootTime w;
     globalIsDistXL := globalIsDistXL w; globalMinioAddr := globalMinioAddr w;
     globalIsSSL := globalIsSSL w; serverConfig := serverConfig w;
     globalServiceSignalCh := globalServiceSignalCh w ++ [s];
     listLocksInfo := listLocksInfo w;
     rpc_Restart := rpc_Restart w; rpc_ListLocks := rpc_ListLocks w;
     rpc_ReInitDisks := rpc_ReInitDisks w; rpc_Uptime := rpc_Uptime w;
     rpc_GetConfig := rpc_GetConfig w |}.

Definition localAdminClient_Uptime (w : World) : Duration * option error :=
  if Time_IsZero (globalBootTime w) then (0, Some errServerNotInitialized)
  else (Time_Sub (now w) (globalBootTime w), None).

Definition localAdminClient_GetConfig (w : World)
  : list Byte.byte * option error :=
  match serverConfig w with
  | None => ([], Some errConfigNotPresent)
  | Some c => json_Marshal c
  end.

Definition localAdminClient : adminCmdRunner := {|
  Restart := λ w, (send_serviceSignal w serviceRestart, None);
  ListLocks := λ w bucket prefix duration,
    (listLocksInfo w bucket prefix duration, None);
  ReInitDisks := λ _, None;
  Uptime := localAdminClient_Uptime;
  GetConfig := localAdminClient_GetConfig
|}.

Definition remoteAdminClient (rc : authConfig) : adminCmdRunner := {|
  Restart := λ w, (w, rpc_Restart w rc);
  ListLocks := λ w bucket prefix duration,
    let listArgs := {| lq_bucket := bucket; lq_prefix := prefix;
                       lq_duration := duration |} in
    match rpc_ListLocks w rc listArgs with
    | (_, Some err) => ([], Some err)
    | (volLocks, None) => (volLocks, None)
    end;
  ReInitDisks := λ w, rpc_ReInitDisks w rc;
  Uptime := λ w,
    match rpc_Uptime w rc with
    | (_, Some err) => (0, Some err)
    | (uptime, None) => (uptime, None)
    end;
  GetConfig := λ w,
    match rpc_GetConfig w rc with
    | (_, Some err) => ([], Some err)
    | (config, None) => (config, None)
    end
|}.

(** ** The peer directory *)

Record adminPeer : Type := { addr : string; cmdRunner : adminCmdRunner }.

(** [path.Join(minioReservedBucketPath, adminPath)]; both constants are
    declared elsewhere. *)
Variable adminServiceEndpoint : string.

Definition adminAuthConfig (serverCred : credential) (isSSL : bool)
    (host : string) : authConfig :=
  {| accessKey := AccessKey serverCred;
     secretKey := SecretKey serverCred;
     serverAddr := host;
     secureConn := isSSL;
     serviceEndpoint := adminServiceEndpoint;
     serviceName := "Admin" |}.

(** One iteration of the loop over [eps]: the state is [servicePeers] and
    [seenAddr].  Reading an absent key of a Go [map[string]bool] gives
    [false]. *)
Definition makeAdminPeers_step (serverCred : credential) (isSSL : bool)
    (st : list adminPeer * gmap string bool) (ep : url_URL)
  : list adminPeer * gmap string bool :=
  let '(servicePeers, seenAddr) := st in
  if bool_decide (Host ep = "") then st
  else if negb (default false (seenAddr !! Host ep)) then
    let cfg := adminAuthConfig serverCred isSSL (Host ep) in
    (servicePeers ++ [ {| addr := Host ep; cmdRunner := remoteAdminClient cfg |} ],
     <[Host ep := true]> seenAddr)
  else st.

(** [makeAdminPeers]; [serverCred] is [serverConfig.GetCredential()]. *)
Definition makeAdminPeers (w : World) (serverCred : credential)
    (eps : list url_URL) : list adminPeer :=
  let servicePeers :=
    [ {| addr := globalMinioAddr w; cmdRunner := localAdminClient |} ] in
  let seenAddr : gmap string bool := <[globalMinioAddr w := true]> ∅ in
  (foldl (makeAdminPeers_step serverCred (globalIsSSL w))
         (servicePeers, seenAddr) eps).1.

Definition len {A : Type} (l : list A) : Z := Z.of_nat (length l).

(** ** Service commands *)

(** [invokeServiceCmd]: only [serviceRestart] has a case in the [switch];
    for any other signal [err] keeps its zero value. *)
Definition invokeServiceCmd (w : World) (cp : adminPeer)
    (cmd : serviceSignal) : World * option error :=
  match cmd with
  | serviceRestart => Restart (cmdRunner cp) w
  | _ => (w, None)
  end.

(** The order in which the bodies of [n] goroutines started in a loop take
    effect is left to the scheduler; a call of a runner is one step. *)
Variable goroutineOrder : nat → list nat.

(** The body of the goroutine started for [remotePeers[idx]]; the state is
    the world and the slice [errs]. *)
Definition sendServiceCmd_remote (remotePeers : list adminPeer)
    (cmd : serviceSignal) (st : World * list (option error)) (idx : nat)
  : World * list (option error) :=
  match remotePeers !! idx with
  | None => st
  | Some remotePeer =>
    let '(w, err) := invokeServiceCmd st.1 remotePeer cmd in
    (w, <[S idx := err]> st.2)
  end.

(** [sendServiceCmd] returns nothing; the model returns the world it leaves
    and the slice [errs] it drops, and [Panic] for [cps[1:]] on an empty
    slice. *)
Definition sendServiceCmd (w : World) (cps : list adminPeer)
    (cmd : serviceSignal) : result (World * list (option error)) :=
  match cps with
  | [] => Panic
  | localPeer :: remotePeers =>
    let errs := replicate (length cps) None in
    let '(w, errs) :=
      foldl (sendServiceCmd_remote remotePeers cmd) (w, errs)
            (goroutineOrder (length remotePeers)) in
    let '(w, err) := invokeServiceCmd w localPeer cmd in
    Ok (w, <[0%nat := err]> errs)
  end.

(** ** Lock aggregation *)

(** The order in which the tally of the Quorum Reducer is visited. *)
Variable errorCountsRange : list (option error * Z) → list (option error * Z).

(** Modelled from the spec: [reduceErrs] is declared outside this file.  The
    Quorum Reducer tallies the values of the error array: a nil entry, the
    mark of a successful response, is a value like any other, and an error
    among [ignoredErrs] is left out.  It returns a most frequent value with
    its number of occurrences, and [(0, nil)] when nothing was tallied; so
    it passes (returns nil) when success is more frequent than every error.
    Which of several equally frequent values it returns is not fixed: the
    order in which the tally is visited decides, the value visited first
    being kept. *)
Definition occurrences (errs : list (option error)) (v : option error) : Z :=
  len (filter (λ x, x = v) errs).


Definition isErrIgnored (err : option error) (ignoredErrs : list error)
  : bool :=
  match err with
  | None => false
  | Some e => bool_decide (e ∈ ignoredErrs)
  end.

(** The tally: every value that was counted, with its frequency. *)
Definition errorCounts (errs : list (option error))
    (ignoredErrs : list error) : list (option error * Z) :=
  let counted :=
    filter (λ err, isErrIgnored err ignoredErrs = false) errs in
  (λ err, (err, occurrences counted err)) <$> remove_dups counted.

Definition reduceErrs_step (st : Z * option error)
    (entry : option error * Z) : Z * option error :=
  if bool_decide (st.1 < entry.2) then (entry.2, entry.1) else st.

(** Modelled from the spec: [reduceErrs], over the tally above. *)
Definition reduceErrs (errs : list (option error)) (ignoredErrs : list error)
  : Z * option error :=
  foldl reduceErrs_step (0, None)
        (errorCountsRange (errorCounts errs ignoredErrs)).

(** Ranging over a Go map visits its entries in an unspecified order. *)
Variable mapRange : gmap nsParam (list VolumeLockInfo) →
                    list (nsParam * list VolumeLockInfo).

(** [paramLockMap[param] = append(paramLockMap[param], lockInfo)] *)
Definition paramLockMap_append (m : gmap nsParam (list VolumeLockInfo))
    (lockInfo : VolumeLockInfo) : gmap nsParam (list VolumeLockInfo) :=
  let param := {| volume := Bucket lockInfo; path := Object lockInfo |} in
  <[param := default [] (m !! param) ++ [lockInfo]]> m.

Definition groupLocks (allLocks : list (list VolumeLockInfo))
  : gmap nsParam (list VolumeLockInfo) :=
  foldl (λ m nodeLocks, foldl paramLockMap_append m nodeLocks) ∅ allLocks.

Definition flattenLocks (m : gmap nsParam (list VolumeLockInfo))
  : list VolumeLockInfo :=
  foldl (λ groupedLockInfos kv, groupedLockInfos ++ kv.2) [] (mapRange m).

(** The slices [allLocks] and [errs] once every call has returned. *)
Definition listPeerLocksInfo_gather (w : World) (peers : list adminPeer)
    (bucket prefix : string) (duration : Duration)
  : list (list VolumeLockInfo * option error) :=
  (λ p, ListLocks (cmdRunner p) w bucket prefix duration) <$> peers.

Definition listPeerLocksInfo (w : World) (peers : list adminPeer)
    (bucket prefix : string) (duration : Duration)
  : result (list VolumeLockInfo) :=
  match peers with
  | [] => Panic                                   (* peers[0] *)
  | localPeer :: remotePeers =>
    let remote := listPeerLocksInfo_gather w remotePeers bucket prefix duration in
    let loc := ListLocks (cmdRunner localPeer) w bucket prefix duration in
    let allLocks := fst <$> (loc :: remote) in
    let errs := snd <$> (loc :: remote) in
    let '(errCount, err) := reduceErrs errs [] in
    match err with
    | Some e =>
      if bool_decide (locksReadQuorum (len peers) ≤ errCount) then Err e
      else Err InsufficientReadQuorum
    | None => Ok (flattenLocks (groupLocks allLocks))
    end
  end.

(** ** Reinitialising disks *)

(** The slice [errs] once every call has returned. *)
Definition reInitPeerDisks_errs (w : World) (peers : list adminPeer)
  : list (option error) :=
  (λ p, ReInitDisks (cmdRunner p) w) <$> peers.

Definition reInitPeerDisks (w : World) (peers : list adminPeer)
  : option error :=
  let errs := reInitPeerDisks_errs w peers in
  None.

(** ** Uptime aggregation *)

Record uptimeEntry : Type := { u_err : option error; u_uptime : Duration }.

Definition uptimeSlice_Less (a b : uptimeEntry) : bool :=
  bool_decide (u_uptime a < u_uptime b).

(** The methods of [uptimeSlice] as [sort.Sort] calls them, by index; [None]
    is the panic of an index out of range. *)
Definition uptimeSlice_at (ts : list uptimeEntry) (i : Z)
  : option uptimeEntry :=
  if bool_decide (0 ≤ i) then ts !! Z.to_nat i else None.

Definition uptimeSlice_Len (ts : list uptimeEntry) : Z := len ts.

Definition uptimeSlice_LessAt (ts : list uptimeEntry) (i j : Z)
  : option bool :=
  match uptimeSlice_at ts i, uptimeSlice_at ts j with
  | Some a, Some b => Some (uptimeSlice_Less a b)
  | _, _ => None
  end.

(** [ts[i], ts[j] = ts[j], ts[i]] *)
Definition uptimeSlice_Swap (ts : list uptimeEntry) (i j : Z)
  : option (list uptimeEntry) :=
  match uptimeSlice_at ts i, uptimeSlice_at ts j with
  | Some a, Some b => Some (<[Z.to_nat j := a]> (<[Z.to_nat i := b]> ts))
  | _, _ => None
  end.

(** [sort.Sort]: the library's in-place sort, driven by [Less]. *)
Variable sort_Sort : list uptimeEntry → list uptimeEntry.

(** The slice [uptimes] once every call has returned. *)
Definition getPeerUptimes_gather (w : World) (peers : list adminPeer)
  : list uptimeEntry :=
  (λ p, let '(uptime, err) := Uptime (cmdRunner p) w in
        {| u_err := err; u_uptime := uptime |}) <$> peers.

(** The loop over the sorted slice; it returns [validCount] and
    [latestUptime] as they stand when the loop is left. *)
Fixpoint getPeerUptimes_scan (readQuorum validCount : Z)
    (uptimes : list uptimeEntry) : Z * Duration :=
  match uptimes with
  | [] => (validCount, 0)
  | uptime :: rest =>
    match u_err uptime with
    | Some _ => getPeerUptimes_scan readQuorum validCount rest   (* continue *)
    | None =>
      let validCount := validCount + 1 in
      if bool_decide (readQuorum ≤ validCount)
      then (validCount, u_uptime uptime)                         (* break *)
      else getPeerUptimes_scan readQuorum validCount rest
    end
  end.

Definition getPeerUptimes (w : World) (peers : list adminPeer)
  : result Duration :=
  if negb (globalIsDistXL w) then
    Ok (Time_Sub (now w) (globalBootTime w))
  else
    let uptimes := getPeerUptimes_gather w peers in
    let sorted := sort_Sort uptimes in
    (* the sort is in place: the slice keeps its length *)
    let readQuorum := uptimeReadQuorum (len uptimes) in
    let '(validCount, latestUptime) := getPeerUptimes_scan readQuorum 0 sorted in
    if bool_decide (validCount < readQuorum) then Err InsufficientReadQuorum
    else Ok latestUptime.

(** ** Config reconciliation *)

#[local] Instance serverConfigV13_inhabited : Inhabited serverConfigV13 :=
  populate zeroServerConfig.

(** The inner loop [for j := 0; j <= i; j++] of [getValidServerConfig], with
    [n = i + 1 - j] iterations left.  Every index it reads is below
    [len(serverConfigs)], so the defaults of [!!!] are never used. *)
Fixpoint getValidServerConfig_scan (serverConfigs : list serverConfigV13)
    (i n j : nat) (configCounter : list Z) : list Z :=
  match n with
  | O => configCounter
  | S n' =>
    if bool_decide (j < i)%nat && bool_decide (configCounter !!! j = 0) then
      getValidServerConfig_scan serverConfigs i n' (S j) configCounter
    else if bool_decide (j < i)%nat
            && DeepEqual (serverConfigs !!! i) (serverConfigs !!! j) then
      <[j := configCounter !!! j + 1]> configCounter
    else if bool_decide (j = i) then
      <[i := 1]> configCounter
    else
      getValidServerConfig_scan serverConfigs i n' (S j) configCounter
  end.

(** One iteration of the outer loop; [None] is the panic of [errs[i]] out of
    range. *)
Definition getValidServerConfig_count_step
    (serverConfigs : list serverConfigV13) (errs : list (option error))
    (st : option (list Z)) (i : nat) : option (list Z) :=
  match st with
  | None => None
  | Some configCounter =>
    match errs !! i with
    | None => None
    | Some (Some _) => Some configCounter
    | Some None =>
      Some (getValidServerConfig_scan serverConfigs i (S i) 0 configCounter)
    end
  end.

Definition getValidServerConfig_count (serverConfigs : list serverConfigV13)
    (errs : list (option error)) : option (list Z) :=
  foldl (getValidServerConfig_count_step serverConfigs errs)
        (Some (replicate (length serverConfigs) 0))
        (seq 0 (length serverConfigs)).

(** The loop that finds the maximally occurring config; the state is
    [maxOccurrence] and [configJSON]. *)
Definition getValidServerConfig_select (serverConfigs : list serverConfigV13)
    (configCounter : list Z) : Z * serverConfigV13 :=
  foldl (λ st ic,
           if bool_decide (st.1 < ic.2) then (ic.2, serverConfigs !!! ic.1)
           else st)
        (0, zeroServerConfig)
        (zip (seq 0 (length configCounter)) configCounter).

Definition getValidServerConfig (serverConfigs : list serverConfigV13)
    (errs : list (option error)) : result serverConfigV13 :=
  let quorum := configQuorum (len serverConfigs) in
  match getValidServerConfig_count serverConfigs errs with
  | None => Panic
  | Some configCounter =>
    let '(maxOccurrence, configJSON) :=
      getValidServerConfig_select serverConfigs configCounter in
    if bool_decide (maxOccurrence < quorum) then Err errXLWriteQuorum
    else Ok configJSON
  end.

(** The slices [configs] and [errs] once every call has returned. *)
Definition getPeerConfig_gather (w : World) (peers : list adminPeer)
  : list (list Byte.byte * option error) :=
  (λ p, GetConfig (cmdRunner p) w) <$> peers.

(** The loop that unmarshals the received configs: a slot whose peer failed
    keeps the zero value, and the first decoding error is returned. *)
Fixpoint getPeerConfig_unmarshal
    (results : list (list Byte.byte * option error))
  : list serverConfigV13 + error :=
  match results with
  | [] => inl []
  | (_, Some _) :: rest =>
    match getPeerConfig_unmarshal rest with
    | inl serverConfigs => inl (zeroServerConfig :: serverConfigs)
    | inr err => inr err
    end
  | (configBytes, None) :: rest =>
    match json_Unmarshal configBytes with
    | inr err => inr err
    | inl c =>
      match getPeerConfig_unmarshal rest with
      | inl serverConfigs => inl (c :: serverConfigs)
      | inr err => inr err
      end
    end
  end.

Definition getPeerConfig (w : World) (peers : list adminPeer)
  : result (list Byte.byte) :=
  if negb (globalIsDistXL w) then
    match peers with
    | [] => Panic                                 (* peers[0] *)
    | p :: _ =>
      match GetConfig (cmdRunner p) w with
      | (_, Some err) => Err err
      | (config, None) => Ok config
      end
    end
  else
    let results := getPeerConfig_gather w peers in
    let errs := snd <$> results in
    match getPeerConfig_unmarshal results with
    | inr err => Err err
    | inl serverConfigs =>
      match getValidServerConfig serverConfigs errs with
      | Panic => Panic
      | Err err => Err (traceError err)
      | Ok configJSON =>
        match json_Marshal configJSON with
        | (_, Some err) => Err err
        | (config, None) => Ok config
        end
      end
    end.

End AdminRPCClient.

(** * Reference definitions used by the statements *)

(** ** Peer directory *)

(** The elements of a list in the order of their first appearance. *)
Fixpoint firstOccurrences (l : list string) : list string :=
  match l with
  | [] => []
  | x :: t => x :: filter (λ y, y ≠ x) (firstOccurrences t)
  end.

(** The addresses the directory is expected to hold: the local address, then
    the non-empty endpoint hosts, each at its first appearance. *)
Definition expectedPeerAddrs (localAddr : string) (hosts : list string)
  : list string :=
  firstOccurrences (localAddr :: filter (λ h, h ≠ "") hosts).

(** ** Config reconciliation *)

Section Votes.

Context {C : Type} `{!EqDecision C}.

(** What a peer contributes to the vote: its snapshot, or nothing when its
    call failed. *)
Definition vote (c : C) (e : option error) : option C :=
  match e with None => Some c | Some _ => None end.

Definition votes (serverConfigs : list C) (errs : list (option error))
  : list (option C) :=
  zip_with vote serverConfigs errs.

(** The number of error-free peers whose snapshot equals [c]. *)
Definition agreement (vs : list (option C)) (c : C) : Z :=
  len (filter (λ v, v = Some c) vs).

(** The largest [agreement] reached by the snapshot of an error-free peer,
    and [0] when every peer failed. *)
Definition maxAgreement (vs : list (option C)) : Z :=
  foldr Z.max 0
        ((λ v, match v with Some c => agreement vs c | None => 0 end) <$> vs).

(** Index [a] anchors the group of [c]: peer [a] is error-free, holds [c],
    and no error-free peer of lower index holds an equal snapshot. *)
Definition isAnchor (vs : list (option C)) (a : nat) (c : C) : Prop :=
  vs !! a = Some (Some c) ∧ Some c ∉ take a vs.

(** The counter expected at index [a]: the size of the group when [a] is its
    anchor, and [0] otherwise. *)
Definition expectedCounter (vs : list (option C)) (a : nat) : Z :=
  match vs !! a with
  | Some (Some c) =>
    if bool_decide (Some c ∈ take a vs) then 0 else agreement vs c
  | _ => 0
  end.

End Votes.

(** Evaluates [agreement] on a list of votes written out in full, when the
    context tells which snapshots differ. *)
Ltac eval_agreement :=
  unfold agreement, len;
  repeat first [ rewrite filter_cons_True by done
               | rewrite filter_cons_False by congruence
               | rewrite filter_nil ];
  cbn [length].

(** ** Uptime aggregation *)

(** The uptimes of the peers whose call succeeded, in slice order. *)
Definition validUptimes (uptimes : list uptimeEntry) : list Duration :=
  u_uptime <$> filter (λ u, u_err u = None) uptimes.

Definition countBelow (u : Duration) (l : list Duration) : Z :=
  len (filter (λ x, x < u) l).

Definition countUpTo (u : Duration) (l : list Duration) : Z :=
  len (filter (λ x, x ≤ u) l).

(** [u] is the [k]-th smallest element of [l], counting from 1 and counting
    repeated values as often as they occur: fewer than [k] elements lie
    strictly below [u], and at least [k] lie at or below it. *)
Definition isKthSmallest (k : Z) (l : list Duration) (u : Duration) : Prop :=
  u ∈ l ∧ countBelow u l < k ≤ countUpTo u l.

(** What [sort.Sort] promises for [uptimeSlice]: the slice is rearranged, and
    afterwards no element is [Less] than the one before it. *)
Definition sortsUptimes (sort : list uptimeEntry → list uptimeEntry) : Prop :=
  ∀ l, sort l ≡ₚ l
       ∧ Sorted (λ a b, uptimeSlice_Less b a = false) (sort l).

(** ** Lock aggregation *)

(** What ranging over a Go map promises: every entry is visited once, in
    some order. *)
Definition rangesOverMap
    (mapRange : gmap nsParam (list VolumeLockInfo) →
                list (nsParam * list VolumeLockInfo)) : Prop :=
  ∀ m, mapRange m ≡ₚ map_to_list m.



(** ** Counters, votes cast, decoded payloads, lock keys, schedules *)

Definition sumCounters (configCounter : list Z) : Z :=
  foldr Z.add 0 configCounter.

Definition nonZeroCounters (configCounter : list Z) : nat :=
  length (filter (λ x, x ≠ 0) configCounter).

(** The snapshots of the error-free peers, in peer order. *)
Definition castVotes {C : Type} (vs : list (option C)) : list C :=
  omap id vs.

(** The vote of each peer as [getPeerConfig] sees it: the decoded payload of
    a peer whose call succeeded. *)
Definition decodedVotes {C : Type} (json_Unmarshal : list Byte.byte → C + error)
    (results : list (list Byte.byte * option error)) : list (option C) :=
  (λ r, match r.2 with
        | Some _ => None
        | None => match json_Unmarshal r.1 with
                  | inl c => Some c
                  | inr _ => None
                  end
        end) <$> results.

(** The key under which [listPeerLocksInfo] files a lock record. *)
Definition lockParam (lockInfo : VolumeLockInfo) : nsParam :=
  {| volume := Bucket lockInfo; path := Object lockInfo |}.

(** The peer [makeAdminPeers] builds for a remote host. *)
Definition remotePeerOf {C : Type} (adminServiceEndpoint : string)
    (serverCred : credential) (isSSL : bool) (host : string)
  : adminPeer (serverConfigV13 := C) :=
  {| addr := host;
     cmdRunner := remoteAdminClient
                    (adminAuthConfig adminServiceEndpoint serverCred isSSL
                                     host) |}.

(** What the scheduler promises: each of the [n] goroutines runs once. *)
Definition schedules (order : nat → list nat) : Prop :=
  ∀ n, order n ≡ₚ seq 0 n.

(** ** A small cluster for the examples *)

Module Cluster.

(** Snapshots are the text of the document; the empty payload does not
    decode. *)
Definition marshal (c : string) : list Byte.byte * option error :=
  (String.list_byte_of_string c, None).

Definition unmarshal (b : list Byte.byte) : string + error :=
  match b with
  | [] => inr (jsonError "unexpected end of JSON input")
  | _ => inl (String.string_of_list_byte b)
  end.

Definition endpoint : string := "/minio/admin".

Definition localAddr : string := "node1:9000".

Definition eps : list url_URL :=
  (λ h, {| Scheme := "http"; Host := h; Path := "/export" |})
    <$> ["node1:9000"; "node2:9000"; "node3:9000"; ""; "node2:9000";
         "node4:9000"; "node5:9000"; "node1:9000"].

Definition cred : credential :=
  {| AccessKey := "minio"; SecretKey := "minio123" |}.

Definition lock (bucket object : string) : VolumeLockInfo :=
  {| Bucket := bucket; Object := object; LocksOnObject := 1;
     LocksAcquiredOnObject := 1; TotalBlockedLocks := 0 |}.

(** The uptime, in minutes, each remote node reports. *)
Definition minutesUp (host : string) : Z :=
  if bool_decide (host = "node2:9000") then 20
  else if bool_decide (host = "node3:9000") then 30
  else if bool_decide (host = "node4:9000") then 40
  else 50.

(** A world in which the nodes listed in [down] cannot be reached, node
    [garbled] answers [GetConfig] with an empty payload, and the local
    process recorded the boot time [boot] ten minutes ago ([boot = 0]: no
    boot time recorded yet). *)
Definition world (dist : bool) (boot : Z) (down : list string)
    (garbled : string) : World (serverConfigV13 := string) :=
  let unreachable (rc : authConfig) : option error :=
    if bool_decide (serverAddr rc ∈ down)
    then Some (rpcError "connection refused") else None in
  {| now := boot + 10 * Minute;
     globalBootTime := boot;
     globalIsDistXL := dist;
     globalMinioAddr := localAddr;
     globalIsSSL := false;
     serverConfig := Some "A";
     globalServiceSignalCh := [];
     listLocksInfo := λ bucket _ _, [lock bucket "a"; lock bucket "b"];
     rpc_Restart := unreachable;
     rpc_ListLocks := λ rc q, ([lock (lq_bucket q) "a"], unreachable rc);
     rpc_ReInitDisks := unreachable;
     rpc_Uptime := λ rc, (minutesUp (serverAddr rc) * Minute, unreachable rc);
     rpc_GetConfig := λ rc,
       (if bool_decide (serverAddr rc = garbled) then []
        else String.list_byte_of_string "A", unreachable rc) |}.

Definition peers (w : World (serverConfigV13 := string))
  : list (adminPeer (serverConfigV13 := string)) :=
  makeAdminPeers marshal endpoint w cred eps.

(** An implementation of the sort, and of ranging over a map. *)
Definition uptimeLe (a b : uptimeEntry) : Prop := u_uptime a ≤ u_uptime b.

#[global] Instance uptimeLe_dec : RelDecision uptimeLe :=
  λ a b, decide (u_uptime a ≤ u_uptime b).

Definition sort (l : list uptimeEntry) : list uptimeEntry :=
  merge_sort uptimeLe l.

Definition mapRange (m : gmap nsParam (list VolumeLockInfo))
  : list (nsParam * list VolumeLockInfo) :=
  map_to_list m.

(** Two ways to visit the tally of the Quorum Reducer: in the order the
    values were first counted, and in the opposite order. *)
Definition errorCountsRange (errorCounts : list (option error * Z))
  : list (option error * Z) := errorCounts.


(** A second sort, and a scheduler that runs the goroutines last to
    first. *)
Definition sort' (l : list uptimeEntry) : list uptimeEntry :=
  merge_sort uptimeLe (reverse l).

Definition order (n : nat) : list nat := reverse (seq 0 n).

Definition localPeer : adminPeer (serverConfigV13 := string) :=
  {| addr := localAddr; cmdRunner := localAdminClient marshal |}.

Definition remotePeers (w : World (serverConfigV13 := string))
  : list (adminPeer (serverConfigV13 := string)) :=
  tail (peers w).

(** All nodes up; three remote nodes down; node 3 garbled; a single node
    that has not finished booting. *)
Definition healthy : World (serverConfigV13 := string) :=
  world true 1000 [] "".
Definition partitioned : World (serverConfigV13 := string) :=
  world true 1000 ["node2:9000"; "node3:9000"; "node4:9000"] "".
Definition garbled3 : World (serverConfigV13 := string) :=
  world true 1000 [] "node3:9000".
Definition booting (dist : bool) : World (serverConfigV13 := string) :=
  world dist 0 [] "".



End Cluster.

(** * Properties *)

Section Properties.

Context {serverConfigV13 : Type} `{!EqDecision serverConfigV13}.
Variable zeroServerConfig : serverConfigV13.
Variable adminServiceEndpoint : string.

Local Abbreviation Peer := (adminPeer (serverConfigV13 := serverConfigV13)).

#[local] Instance serverConfigV13_default : Inhabited serverConfigV13 :=
  serverConfigV13_inhabited zeroServerConfig.
Implicit Types (w : World (serverConfigV13 := serverConfigV13)).
Implicit Types (peers remote : list Peer).

(** ** Peer directory *)

Lemma firstOccurrences_elem (l : list string) (x : string) :
  x ∈ firstOccurrences l ↔ x ∈ l.
Proof.
  induction l as [|y t IH]; simpl; [done|].
  rewrite !elem_of_cons, list_elem_of_filter, IH.
  destruct (decide (x = y)); naive_solver.
Qed.

Lemma firstOccurrences_NoDup (l : list string) : NoDup (firstOccurrences l).
Proof.
  induction l as [|y t IH]; simpl; [constructor|].
  constructor; [|by apply NoDup_filter].
  rewrite list_elem_of_filter. naive_solver.
Qed.

Lemma filter_not_elem_snoc (seen X : list string) (h : string) :
  filter (λ k, k ∉ seen ++ [h]) X = filter (λ k, k ∉ seen) (filter (λ k, k ≠ h) X).
Proof.
  rewrite list_filter_filter. apply list_filter_iff. intros k.
  rewrite elem_of_app, list_elem_of_singleton. naive_solver.
Qed.

Lemma filter_not_elem_seen (seen X : list string) (h : string) :
  h ∈ seen →
  filter (λ k, k ∉ seen) (filter (λ k, k ≠ h) X) = filter (λ k, k ∉ seen) X.
Proof.
  intros Hin. rewrite list_filter_filter. apply list_filter_iff. intros k.
  split; [naive_solver|]. intros Hk. split; [done|]. by intros ->.
Qed.

Lemma makeAdminPeers_loop (serverCred : credential) (isSSL : bool)
    (eps : list url_URL) (servicePeers : list Peer)
    (seenAddr : gmap string bool) :
  (∀ h, default false (seenAddr !! h) = true ↔ h ∈ addr <$> servicePeers) →
  ∃ new : list Peer,
    (foldl (makeAdminPeers_step adminServiceEndpoint serverCred isSSL)
           (servicePeers, seenAddr) eps).1 = servicePeers ++ new
    ∧ addr <$> new =
        filter (λ h, h ∉ addr <$> servicePeers)
               (firstOccurrences (filter (λ h, h ≠ "") (Host <$> eps)))
    ∧ Forall (λ p, cmdRunner p =
                   remoteAdminClient
                     (adminAuthConfig adminServiceEndpoint serverCred isSSL (addr p)))
             new.
Proof.
  revert servicePeers seenAddr.
  induction eps as [|ep eps IH]; intros ps seen Hseen.
  - exists []. by rewrite app_nil_r.
  - cbn [foldl]. unfold makeAdminPeers_step at 2.
    rewrite fmap_cons. case_bool_decide as Hhost.
    + rewrite filter_cons_False by naive_solver. by apply IH.
    + rewrite filter_cons_True by done. cbn [firstOccurrences].
      destruct (default false (seen !! Host ep)) eqn:Hlk; cbn [negb].
      * apply Hseen in Hlk.
        rewrite filter_cons_False by naive_solver.
        rewrite filter_not_elem_seen by done. by apply IH.
      * assert (Host ep ∉ addr <$> ps) as Hnew.
        { intros Hin. apply Hseen in Hin. congruence. }
        rewrite filter_cons_True by done.
        edestruct (IH (ps ++ [ {| addr := Host ep;
                                   cmdRunner := remoteAdminClient
                                     (adminAuthConfig adminServiceEndpoint
                                        serverCred isSSL (Host ep)) |} ])
                      (<[Host ep := true]> seen)) as (new & Hr & Hnewaddr & Hrun).
        { intros h. rewrite fmap_app, elem_of_app. cbn.
          rewrite list_elem_of_singleton, <- Hseen.
          destruct (decide (Host ep = h)) as [->|Hne].
          - rewrite lookup_insert_eq. naive_solver.
          - rewrite lookup_insert_ne by done. naive_solver. }
        eexists (_ :: new). split; [|split].
        -- rewrite Hr, <- app_assoc. done.
        -- rewrite fmap_cons. cbn [addr]. f_equal.
           rewrite Hnewaddr, fmap_app. cbn. apply filter_not_elem_snoc.
        -- constructor; [done|done].
Qed.

(** C8. For every endpoint list, [makeAdminPeers] returns a directory whose
    first peer is the local one (the local address with the local runner),
    whose addresses are pairwise distinct, and whose addresses are the local
    address followed by the non-empty endpoint hosts in the order in which
    they first appear, each remote peer carrying a remote runner bound to its
    own address and the shared credential.  The function is total: it has no
    error and no panic outcome. *)
Theorem makeAdminPeers_directory
    (json_Marshal : serverConfigV13 → list Byte.byte * option error)
    w (serverCred : credential) (eps : list url_URL) :
  let peers := makeAdminPeers json_Marshal adminServiceEndpoint w serverCred eps in
  (∃ remote,
      peers = {| addr := globalMinioAddr w;
                 cmdRunner := localAdminClient json_Marshal |} :: remote
      ∧ Forall (λ p, cmdRunner p =
                     remoteAdminClient
                       (adminAuthConfig adminServiceEndpoint serverCred
                                        (globalIsSSL w) (addr p)))
               remote)
  ∧ NoDup (addr <$> peers)
  ∧ addr <$> peers = expectedPeerAddrs (globalMinioAddr w) (Host <$> eps)
  ∧ (∀ h, h ∈ addr <$> peers ↔
          h = globalMinioAddr w ∨ (h ≠ "" ∧ h ∈ Host <$> eps)).
Proof.
  intros peers.
  destruct (makeAdminPeers_loop serverCred (globalIsSSL w) eps
              [ {| addr := globalMinioAddr w;
                   cmdRunner := localAdminClient json_Marshal |} ]
              (<[globalMinioAddr w := true]> ∅)) as (new & Hr & Haddr & Hrun).
  { intros h. cbn. rewrite list_elem_of_singleton.
    destruct (decide (globalMinioAddr w = h)) as [->|Hne].
    - rewrite lookup_insert_eq. naive_solver.
    - rewrite lookup_insert_ne, lookup_empty by done. naive_solver. }
  assert (addr <$> peers = expectedPeerAddrs (globalMinioAddr w) (Host <$> eps))
    as Hexp.
  { unfold peers, makeAdminPeers. rewrite Hr. cbn. f_equal.
    rewrite Haddr. apply list_filter_iff. intros k. cbn.
    rewrite list_elem_of_singleton. done. }
  split; [|split; [|split]].
  - exists new. split; [|done]. unfold peers, makeAdminPeers. by rewrite Hr.
  - rewrite Hexp. apply firstOccurrences_NoDup.
  - done.
  - intros h. rewrite Hexp. unfold expectedPeerAddrs.
    rewrite firstOccurrences_elem, elem_of_cons, list_elem_of_filter. done.
Qed.


(** ** Config reconciliation: the votes *)

Implicit Types (vs l : list (option serverConfigV13)) (c : serverConfigV13).

Lemma agreement_snoc l v c :
  agreement (l ++ [v]) c
  = agreement l c + (if bool_decide (v = Some c) then 1 else 0).
Proof.
  unfold agreement, len. rewrite filter_app, length_app.
  rewrite filter_cons, filter_nil.
  case_bool_decide; destruct (decide _); try done; cbn; lia.
Qed.

Lemma agreement_nonneg l c : 0 ≤ agreement l c.
Proof. unfold agreement, len. lia. Qed.

Lemma agreement_pos l c : Some c ∈ l → 0 < agreement l c.
Proof.
  intros Hin. unfold agreement, len.
  assert (Some c ∈ filter (λ v, v = Some c) l) as Hf
    by by apply list_elem_of_filter.
  destruct (filter _ l); [by apply not_elem_of_nil in Hf|]. cbn. lia.
Qed.

Lemma agreement_zero l c : Some c ∉ l → agreement l c = 0.
Proof.
  intros Hnin. unfold agreement, len.
  destruct (filter (λ v, v = Some c) l) as [|x t] eqn:Hf; [done|].
  assert (x ∈ filter (λ v, v = Some c) l) as Hx by (rewrite Hf; left).
  apply list_elem_of_filter in Hx as [-> Hx]. done.
Qed.

Lemma isAnchor_lt l a c : isAnchor l a c → (a < length l)%nat.
Proof. intros [Hl _]. by apply lookup_lt_Some in Hl. Qed.

Lemma isAnchor_exists l c : Some c ∈ l → ∃ a, isAnchor l a c.
Proof.
  intros Hin.
  destruct (list_find_elem_of (λ v, v = Some c) l (Some c) Hin eq_refl)
    as [[a x] Hf].
  apply list_find_Some in Hf as (Hl & -> & Hfirst).
  exists a. split; [done|].
  intros (b & Hb & Hlt)%elem_of_take. by eapply Hfirst.
Qed.

Lemma isAnchor_unique l a b c : isAnchor l a c → isAnchor l b c → a = b.
Proof.
  intros [Ha Hna] [Hb Hnb].
  destruct (Nat.lt_trichotomy a b) as [Hlt|[->|Hlt]]; [|done|].
  - destruct Hnb. apply elem_of_take. eauto.
  - destruct Hna. apply elem_of_take. eauto.
Qed.

Lemma expectedCounter_anchor l a c :
  isAnchor l a c → expectedCounter l a = agreement l c.
Proof.
  intros [Hl Hn]. unfold expectedCounter. rewrite Hl.
  by rewrite bool_decide_eq_false_2.
Qed.

Lemma expectedCounter_not_anchor l a :
  (∀ c, ¬ isAnchor l a c) → expectedCounter l a = 0.
Proof.
  intros Hn. unfold expectedCounter.
  destruct (l !! a) as [[c|]|] eqn:Hl; try done.
  case_bool_decide as Hin; [done|]. by destruct (Hn c).
Qed.

Lemma expectedCounter_nonneg l a : 0 ≤ expectedCounter l a.
Proof.
  unfold expectedCounter. destruct (l !! a) as [[c|]|]; try done.
  case_bool_decide; [done|apply agreement_nonneg].
Qed.

Lemma expectedCounter_pos l a :
  0 < expectedCounter l a ↔ ∃ c, isAnchor l a c.
Proof.
  split.
  - intros Hpos. unfold expectedCounter in Hpos.
    destruct (l !! a) as [[c|]|] eqn:Hl; try lia.
    case_bool_decide as Hin; [lia|]. by exists c.
  - intros [c Hc]. rewrite (expectedCounter_anchor _ _ _ Hc).
    apply agreement_pos. destruct Hc as [Hl _].
    apply list_elem_of_lookup. eauto.
Qed.

Lemma expectedCounter_ge l a : (length l ≤ a)%nat → expectedCounter l a = 0.
Proof.
  intros Hge. unfold expectedCounter. by rewrite lookup_ge_None_2.
Qed.

Lemma expectedCounter_snoc_None l a :
  expectedCounter (l ++ [None]) a = expectedCounter l a.
Proof.
  unfold expectedCounter.
  destruct (decide (a < length l)%nat) as [Hlt|Hge].
  - rewrite lookup_app_l, take_app_le by lia.
    destruct (l !! a) as [[c|]|]; try done.
    rewrite agreement_snoc. rewrite (bool_decide_eq_false_2 (None = Some c)) by done.
    by rewrite Z.add_0_r.
  - rewrite (lookup_ge_None_2 l) by lia.
    destruct (decide (a = length l)) as [->|Hne].
    + by rewrite list_lookup_middle.
    + rewrite lookup_ge_None_2; [done|]. rewrite length_app. cbn. lia.
Qed.

Lemma expectedCounter_snoc_anchor l a c :
  isAnchor l a c →
  expectedCounter (l ++ [Some c]) a = expectedCounter l a + 1.
Proof.
  intros Hanc. pose proof (isAnchor_lt _ _ _ Hanc) as Hlt.
  rewrite (expectedCounter_anchor l a c Hanc).
  destruct Hanc as [Hl Hn].
  unfold expectedCounter. rewrite lookup_app_l, take_app_le, Hl by lia.
  rewrite bool_decide_eq_false_2 by done.
  rewrite agreement_snoc. by rewrite bool_decide_eq_true_2.
Qed.

Lemma expectedCounter_snoc_other l a c :
  ¬ isAnchor l a c → a ≠ length l →
  expectedCounter (l ++ [Some c]) a = expectedCounter l a.
Proof.
  intros Hnanc Hne. unfold expectedCounter.
  destruct (decide (a < length l)%nat) as [Hlt|Hge].
  - rewrite lookup_app_l, take_app_le by lia.
    destruct (l !! a) as [[c'|]|] eqn:Hl; try done.
    case_bool_decide as Hin; [done|].
    rewrite agreement_snoc. case_bool_decide as Heq; [|lia].
    simplify_eq. by destruct Hnanc.
  - rewrite (lookup_ge_None_2 l) by lia.
    rewrite lookup_ge_None_2; [done|]. rewrite length_app. cbn. lia.
Qed.

Lemma expectedCounter_snoc_new l c a :
  a = length l →
  expectedCounter (l ++ [Some c]) a
  = if bool_decide (Some c ∈ l) then 0 else 1.
Proof.
  intros ->. unfold expectedCounter. rewrite list_lookup_middle by done.
  rewrite take_app_length. case_bool_decide as Hin; [done|].
  rewrite agreement_snoc, agreement_zero by done.
  by rewrite bool_decide_eq_true_2.
Qed.

(** ** Config reconciliation: the counting loops *)

Lemma votes_length (serverConfigs : list serverConfigV13)
    (errs : list (option error)) :
  length errs = length serverConfigs →
  length (votes serverConfigs errs) = length serverConfigs.
Proof. intros Hlen. unfold votes. by rewrite length_zip_with_l_eq. Qed.

Lemma votes_lookup (serverConfigs : list serverConfigV13)
    (errs : list (option error)) (i : nat) (e : option error) :
  (i < length serverConfigs)%nat → errs !! i = Some e →
  votes serverConfigs errs !! i = Some (vote (serverConfigs !!! i) e).
Proof.
  intros Hlt He. unfold votes. rewrite lookup_zip_with.
  rewrite (list_lookup_lookup_total_lt serverConfigs i) by done.
  cbn. by rewrite He.
Qed.

Lemma votes_lookup_Some (serverConfigs : list serverConfigV13)
    (errs : list (option error)) (i : nat) c :
  votes serverConfigs errs !! i = Some (Some c) →
  serverConfigs !!! i = c ∧ errs !! i = Some None.
Proof.
  unfold votes. intros (x & e & Hv & Hx & He)%lookup_zip_with_Some.
  rewrite (list_lookup_total_correct _ _ _ Hx).
  destruct e; cbn in Hv; by simplify_eq.
Qed.

Lemma getValidServerConfig_scan_spec (serverConfigs : list serverConfigV13)
    (i : nat) (configCounter : list Z) (n j : nat) :
  (j + n = S i)%nat → (1 ≤ n)%nat →
  (∃ k, (j ≤ k < i)%nat
        ∧ configCounter !!! k ≠ 0
        ∧ serverConfigs !!! k = serverConfigs !!! i
        ∧ (∀ b, (j ≤ b < k)%nat →
                ¬ (configCounter !!! b ≠ 0
                   ∧ serverConfigs !!! b = serverConfigs !!! i))
        ∧ getValidServerConfig_scan zeroServerConfig serverConfigs i n j
                                    configCounter
          = <[k := configCounter !!! k + 1]> configCounter)
  ∨ ((∀ b, (j ≤ b < i)%nat →
           ¬ (configCounter !!! b ≠ 0
              ∧ serverConfigs !!! b = serverConfigs !!! i))
     ∧ getValidServerConfig_scan zeroServerConfig serverConfigs i n j
                                 configCounter
       = <[i := 1]> configCounter).
Proof.
  revert j. induction n as [|n IH]; intros j Hj Hn; [lia|].
  cbn [getValidServerConfig_scan].
  destruct (decide (j < i)%nat) as [Hlt|Hge].
  - rewrite (bool_decide_eq_true_2 (j < i)%nat) by done. cbn [andb].
    assert (∀ P : nat → Prop, ¬ P j →
              (∀ b, (S j ≤ b < i)%nat → ¬ P b) →
              ∀ b, (j ≤ b < i)%nat → ¬ P b) as Hext.
    { intros P Hj0 Hrest b Hb. destruct (decide (b = j)) as [->|]; [done|].
      apply Hrest. lia. }
    assert (∀ (P : nat → Prop) k, ¬ P j →
              (∀ b, (S j ≤ b < k)%nat → ¬ P b) →
              ∀ b, (j ≤ b < k)%nat → ¬ P b) as Hext'.
    { intros P k Hj0 Hrest b Hb. destruct (decide (b = j)) as [->|]; [done|].
      apply Hrest. lia. }
    case_bool_decide as Hzero.
    + destruct (IH (S j)) as [(k & Hk & Hnz & Heq & Hfirst & ->)|[Hnone ->]];
        [lia|lia| |].
      * left. exists k. split; [lia|]. split; [done|]. split; [done|].
        split; [|done].
        apply (Hext' (λ b, configCounter !!! b ≠ 0
                           ∧ serverConfigs !!! b = serverConfigs !!! i));
          [naive_solver|done].
      * right. split; [|done].
        apply (Hext (λ b, configCounter !!! b ≠ 0
                          ∧ serverConfigs !!! b = serverConfigs !!! i));
          [naive_solver|done].
    + unfold DeepEqual. case_bool_decide as Heq.
      * left. exists j. split; [lia|]. split; [done|]. split; [done|].
        split; [|done]. intros b Hb. lia.
      * rewrite (bool_decide_eq_false_2 (j = i)) by lia.
        destruct (IH (S j)) as [(k & Hk & Hnz & Heq' & Hfirst & ->)|[Hnone ->]];
          [lia|lia| |].
        -- left. exists k. split; [lia|]. split; [done|]. split; [done|].
           split; [|done].
           apply (Hext' (λ b, configCounter !!! b ≠ 0
                              ∧ serverConfigs !!! b = serverConfigs !!! i));
             [naive_solver|done].
        -- right. split; [|done].
           apply (Hext (λ b, configCounter !!! b ≠ 0
                             ∧ serverConfigs !!! b = serverConfigs !!! i));
             [naive_solver|done].
  - assert (j = i) as -> by lia.
    rewrite (bool_decide_eq_false_2 (i < i)%nat) by lia. cbn [andb].
    rewrite (bool_decide_eq_true_2 (i = i)) by done.
    right. split; [|done]. intros b Hb. lia.
Qed.

Lemma getValidServerConfig_count_step_spec
    (serverConfigs : list serverConfigV13) (errs : list (option error))
    (i : nat) (configCounter : list Z) :
  length errs = length serverConfigs →
  (i < length serverConfigs)%nat →
  length configCounter = length serverConfigs →
  (∀ a, (a < length serverConfigs)%nat →
        configCounter !!! a
        = expectedCounter (take i (votes serverConfigs errs)) a) →
  ∃ configCounter',
    getValidServerConfig_count_step zeroServerConfig serverConfigs errs
                                    (Some configCounter) i
    = Some configCounter'
    ∧ length configCounter' = length serverConfigs
    ∧ ∀ a, (a < length serverConfigs)%nat →
           configCounter' !!! a
           = expectedCounter (take (S i) (votes serverConfigs errs)) a.
Proof.
  intros Hlen Hi Hcc Hinv.
  set (vs := votes serverConfigs errs) in *.
  assert (length vs = length serverConfigs) as Hvs by by apply votes_length.
  destruct (lookup_lt_is_Some_2 errs i) as [e He]; [lia|].
  pose proof (votes_lookup serverConfigs errs i e Hi He) as Hvi.
  fold vs in Hvi.
  assert (length (take i vs) = i) as Hli by (rewrite length_take; lia).
  assert (∀ b x, take i vs !! b = Some x → vs !! b = Some x) as Hpre.
  { intros b x Hb. pose proof (lookup_lt_Some _ _ _ Hb) as Hlt.
    rewrite lookup_take_lt in Hb by lia. done. }
  unfold getValidServerConfig_count_step. rewrite He.
  rewrite (take_S_r vs i _ Hvi).
  destruct e as [e|]; cbn [vote].
  { exists configCounter. split; [done|]. split; [done|].
    intros a Ha. rewrite expectedCounter_snoc_None. by apply Hinv. }
  set (c := serverConfigs !!! i) in *.
  assert (∀ b, isAnchor (take i vs) b c →
               (b < i)%nat ∧ configCounter !!! b ≠ 0
               ∧ serverConfigs !!! b = c) as Hanchor.
  { intros b Hb. pose proof (isAnchor_lt _ _ _ Hb) as Hlt.
    split; [lia|]. split.
    - rewrite Hinv by lia.
      apply Z.neq_sym, Z.lt_neq, expectedCounter_pos. eauto.
    - destruct Hb as [Hb _]. apply Hpre in Hb.
      by apply votes_lookup_Some in Hb as [? _]. }
  destruct (getValidServerConfig_scan_spec serverConfigs i configCounter (S i) 0)
    as [(k & Hk & Hnz & Heq & Hfirst & ->)|[Hnone ->]]; [lia|lia| |].
  - assert (isAnchor (take i vs) k c) as Hkanc.
    { assert (0 < expectedCounter (take i vs) k) as Hpos.
      { pose proof (expectedCounter_nonneg (take i vs) k).
        rewrite <- Hinv in * by lia. lia. }
      apply expectedCounter_pos in Hpos as [c' Hc'].
      assert (c' = c) as ->; [|done].
      destruct Hc' as [Hc' _]. apply Hpre in Hc'.
      apply votes_lookup_Some in Hc' as [<- _]. done. }
    eexists. split; [done|]. split; [by rewrite length_insert|].
    intros a Han. destruct (decide (a = k)) as [->|Hne].
    + rewrite list_lookup_total_insert_eq by lia.
      by rewrite expectedCounter_snoc_anchor, Hinv.
    + rewrite list_lookup_total_insert_ne by done. rewrite Hinv by done.
      destruct (decide (a = i)) as [->|Hai].
      * rewrite expectedCounter_snoc_new by done.
        rewrite bool_decide_eq_true_2.
        -- apply expectedCounter_ge. lia.
        -- destruct Hkanc as [Hl _]. apply list_elem_of_lookup. eauto.
      * rewrite expectedCounter_snoc_other; [done| |lia].
        intros Ha. apply Hne. by eapply isAnchor_unique.
  - assert (Some c ∉ take i vs) as Hnew.
    { intros [b Hb]%isAnchor_exists.
      destruct (Hanchor b Hb) as (Hlt & Hnz & Heq).
      apply (Hnone b); [lia|done]. }
    eexists. split; [done|]. split; [by rewrite length_insert|].
    intros a Han. destruct (decide (a = i)) as [->|Hai].
    + rewrite list_lookup_total_insert_eq by lia.
      rewrite expectedCounter_snoc_new by done.
      by rewrite bool_decide_eq_false_2.
    + rewrite list_lookup_total_insert_ne by done. rewrite Hinv by done.
      rewrite expectedCounter_snoc_other; [done| |lia].
      intros [Ha Hna]. apply Hnew. apply list_elem_of_lookup. eauto.
Qed.

Lemma getValidServerConfig_count_loop
    (serverConfigs : list serverConfigV13) (errs : list (option error))
    (m i : nat) (configCounter : list Z) :
  length errs = length serverConfigs →
  (i + m = length serverConfigs)%nat →
  length configCounter = length serverConfigs →
  (∀ a, (a < length serverConfigs)%nat →
        configCounter !!! a
        = expectedCounter (take i (votes serverConfigs errs)) a) →
  ∃ configCounter',
    foldl (getValidServerConfig_count_step zeroServerConfig serverConfigs errs)
          (Some configCounter) (seq i m)
    = Some configCounter'
    ∧ length configCounter' = length serverConfigs
    ∧ ∀ a, (a < length serverConfigs)%nat →
           configCounter' !!! a
           = expectedCounter (votes serverConfigs errs) a.
Proof.
  intros Hlen. revert i configCounter.
  induction m as [|m IH]; intros i cc Him Hcc Hinv.
  - exists cc. split; [done|]. split; [done|].
    intros a Ha. rewrite Hinv, take_ge; [done| |done].
    rewrite votes_length by done. lia.
  - cbn [seq foldl].
    destruct (getValidServerConfig_count_step_spec serverConfigs errs i cc)
      as (cc' & -> & Hcc' & Hinv'); [done|lia|done|done|].
    apply IH; [lia|done|done].
Qed.

Lemma getValidServerConfig_count_spec
    (serverConfigs : list serverConfigV13) (errs : list (option error)) :
  length errs = length serverConfigs →
  ∃ configCounter,
    getValidServerConfig_count zeroServerConfig serverConfigs errs
    = Some configCounter
    ∧ length configCounter = length serverConfigs
    ∧ ∀ a, (a < length serverConfigs)%nat →
           configCounter !!! a
           = expectedCounter (votes serverConfigs errs) a.
Proof.
  intros Hlen. unfold getValidServerConfig_count.
  apply getValidServerConfig_count_loop; [done|lia|by rewrite length_replicate|].
  intros a Ha. rewrite take_0. rewrite expectedCounter_ge by (cbn; lia).
  by rewrite lookup_total_replicate_2.
Qed.

Lemma getValidServerConfig_select_loop (serverConfigs : list serverConfigV13)
    (configCounter l : list Z) (j : nat) (st : Z * serverConfigV13) :
  drop j configCounter = l → (j ≤ length configCounter)%nat →
  0 ≤ st.1 →
  (∀ b, (b < j)%nat → configCounter !!! b ≤ st.1) →
  (st.1 = 0 ∧ st.2 = zeroServerConfig
   ∨ ∃ a, (a < j)%nat ∧ configCounter !!! a = st.1 ∧ 0 < st.1
          ∧ st.2 = serverConfigs !!! a
          ∧ ∀ b, (b < a)%nat → configCounter !!! b < st.1) →
  let st' :=
    foldl (λ st ic, if bool_decide (st.1 < ic.2)
                    then (ic.2, serverConfigs !!! ic.1) else st)
          st (zip (seq j (length l)) l) in
  0 ≤ st'.1
  ∧ (∀ b, (b < length configCounter)%nat → configCounter !!! b ≤ st'.1)
  ∧ (st'.1 = 0 ∧ st'.2 = zeroServerConfig
     ∨ ∃ a, (a < length configCounter)%nat ∧ configCounter !!! a = st'.1
            ∧ 0 < st'.1 ∧ st'.2 = serverConfigs !!! a
            ∧ ∀ b, (b < a)%nat → configCounter !!! b < st'.1).
Proof.
  revert j st. induction l as [|x l IH]; intros j st Hdrop Hj Hpos Hmax Hsel.
  - assert (j = length configCounter) as ->.
    { apply (f_equal length) in Hdrop. rewrite length_drop in Hdrop.
      cbn in Hdrop. lia. }
    cbn. done.
  - assert (configCounter !! j = Some x) as Hx.
    { rewrite <- (Nat.add_0_r j), <- lookup_drop, Hdrop. done. }
    pose proof (lookup_lt_Some _ _ _ Hx) as Hlt.
    pose proof (list_lookup_total_correct _ _ _ Hx) as Hxt.
    rewrite (drop_S _ _ _ Hx) in Hdrop. injection Hdrop as <-.
    cbn [length seq zip zip_with foldl]. cbn [fst snd].
    apply IH; [done|lia| | |].
    + case_bool_decide; cbn; lia.
    + intros b Hb. destruct (decide (b = j)) as [->|Hne].
      * rewrite Hxt. case_bool_decide; cbn; lia.
      * specialize (Hmax b). case_bool_decide; cbn; lia.
    + case_bool_decide as Hupd.
      * right. exists j. cbn. split; [lia|]. split; [done|].
        split; [lia|]. split; [done|].
        intros b Hb. specialize (Hmax b). lia.
      * destruct Hsel as [Hzero|(a & Ha & Hca & Hap & Hcfg & Hfirst)];
          [by left|].
        right. exists a. split; [lia|]. done.
Qed.

Lemma getValidServerConfig_select_spec (serverConfigs : list serverConfigV13)
    (configCounter : list Z) :
  let st := getValidServerConfig_select zeroServerConfig serverConfigs
                                        configCounter in
  0 ≤ st.1
  ∧ (∀ b, (b < length configCounter)%nat → configCounter !!! b ≤ st.1)
  ∧ (st.1 = 0 ∧ st.2 = zeroServerConfig
     ∨ ∃ a, (a < length configCounter)%nat ∧ configCounter !!! a = st.1
            ∧ 0 < st.1 ∧ st.2 = serverConfigs !!! a
            ∧ ∀ b, (b < a)%nat → configCounter !!! b < st.1).
Proof.
  unfold getValidServerConfig_select.
  apply (getValidServerConfig_select_loop serverConfigs configCounter
           configCounter 0 (0, zeroServerConfig)); cbn; try done; try lia.
  by left.
Qed.

Lemma foldr_Zmax_ge {A : Type} (f : A → Z) (xs : list A) (x : A) :
  x ∈ xs → f x ≤ foldr Z.max 0 (f <$> xs).
Proof.
  induction xs as [|y xs IH]; [by intros ?%not_elem_of_nil|].
  intros [->|Hin]%elem_of_cons; cbn; [lia|]. specialize (IH Hin). lia.
Qed.

Lemma foldr_Zmax_attained {A : Type} (f : A → Z) (xs : list A) :
  foldr Z.max 0 (f <$> xs) = 0
  ∨ ∃ x, x ∈ xs ∧ f x = foldr Z.max 0 (f <$> xs).
Proof.
  induction xs as [|y xs IH]; [by left|]. cbn.
  destruct (Z.max_spec (f y) (foldr Z.max 0 (f <$> xs))) as [[_ ->]|[_ ->]].
  - destruct IH as [?|(x & Hx & Heq)]; [by left|].
    right. exists x. split; [by right|done].
  - right. exists y. split; [by left|done].
Qed.

Lemma maxAgreement_nonneg vs : 0 ≤ maxAgreement vs.
Proof.
  unfold maxAgreement.
  generalize ((λ v, match v with Some c => agreement vs c | None => 0 end) <$> vs).
  intros zs. induction zs; cbn; lia.
Qed.

Lemma maxAgreement_ge vs c : Some c ∈ vs → agreement vs c ≤ maxAgreement vs.
Proof.
  intros Hin. unfold maxAgreement.
  apply (foldr_Zmax_ge
           (λ v, match v with Some c => agreement vs c | None => 0 end)
           vs (Some c) Hin).
Qed.

Lemma maxAgreement_attained vs :
  maxAgreement vs = 0
  ∨ ∃ c, Some c ∈ vs ∧ agreement vs c = maxAgreement vs.
Proof.
  unfold maxAgreement.
  destruct (foldr_Zmax_attained
              (λ v, match v with Some c => agreement vs c | None => 0 end) vs)
    as [?|([c|] & Hin & Heq)]; [by left| |by left].
  right. by exists c.
Qed.

Lemma isAnchor_elem vs a c : isAnchor vs a c → Some c ∈ vs.
Proof. intros [Hl _]. apply list_elem_of_lookup. eauto. Qed.

(** The counters after the counting loop and the choice made by the
    selection loop, in terms of the votes. *)
Lemma getValidServerConfig_outcome (serverConfigs : list serverConfigV13)
    (errs : list (option error)) :
  length errs = length serverConfigs →
  let vs := votes serverConfigs errs in
  ∃ configCounter,
    getValidServerConfig_count zeroServerConfig serverConfigs errs
    = Some configCounter
    ∧ length configCounter = length serverConfigs
    ∧ (∀ a, (a < length serverConfigs)%nat →
            configCounter !! a = Some (expectedCounter vs a))
    ∧ let st := getValidServerConfig_select zeroServerConfig serverConfigs
                                            configCounter in
      st.1 = maxAgreement vs
      ∧ (0 < maxAgreement vs →
         ∃ a, isAnchor vs a st.2
              ∧ agreement vs st.2 = maxAgreement vs
              ∧ ∀ b c, isAnchor vs b c →
                       agreement vs c = maxAgreement vs → (a ≤ b)%nat).
Proof.
  intros Hlen vs.
  destruct (getValidServerConfig_count_spec serverConfigs errs Hlen)
    as (cc & Hcount & Hcc & Hinv). fold vs in Hinv.
  assert (length vs = length serverConfigs) as Hvs by by apply votes_length.
  exists cc. split; [done|]. split; [done|]. split.
  { intros a Ha. rewrite <- Hinv by done.
    apply list_lookup_lookup_total_lt. lia. }
  destruct (getValidServerConfig_select_spec serverConfigs cc)
    as (Hpos & Hmax & Hsel).
  set (st := getValidServerConfig_select zeroServerConfig serverConfigs cc) in *.
  cbn zeta.
  assert (st.1 = maxAgreement vs) as Hst.
  { apply Z.le_antisymm.
    - destruct Hsel as [[-> _]|(a & Ha & Hca & Hap & _)];
        [apply maxAgreement_nonneg|].
      rewrite Hinv in Hca by lia. rewrite <- Hca in Hap.
      apply expectedCounter_pos in Hap as [c Hc].
      rewrite <- Hca, (expectedCounter_anchor _ _ _ Hc).
      apply maxAgreement_ge. by eapply isAnchor_elem.
    - destruct (maxAgreement_attained vs) as [->|(c & Hin & <-)]; [done|].
      destruct (isAnchor_exists vs c Hin) as [b Hb].
      pose proof (isAnchor_lt _ _ _ Hb) as Hlt.
      rewrite <- (expectedCounter_anchor _ _ _ Hb), <- Hinv by lia.
      apply Hmax. lia. }
  split; [done|]. intros Hmpos.
  destruct Hsel as [[Hz _]|(a & Ha & Hca & Hap & Hcfg & Hfirst)]; [lia|].
  rewrite Hinv in Hca by lia.
  assert (0 < expectedCounter vs a) as [c Hc]%expectedCounter_pos by lia.
  assert (st.2 = c) as ->.
  { rewrite Hcfg. destruct Hc as [Hc _].
    by apply votes_lookup_Some in Hc as [? _]. }
  exists a. split; [done|].
  rewrite (expectedCounter_anchor _ _ _ Hc) in Hca.
  split; [lia|].
  intros b c' Hb Hc'. destruct (decide (a ≤ b)%nat) as [|Hgt]; [done|].
  pose proof (isAnchor_lt _ _ _ Hb) as Hlt.
  specialize (Hfirst b). rewrite Hinv in Hfirst by lia.
  rewrite (expectedCounter_anchor _ _ _ Hb) in Hfirst. lia.
Qed.

(** C4. After the counting loop of [getValidServerConfig], every error-free
    peer belongs to exactly one group, anchored at the lowest error-free
    index holding an equal snapshot; the counter at an anchor is the number
    of error-free peers holding that snapshot and every other counter is
    zero.  The single selection loop then picks a group of maximal count,
    and among groups of equal maximal count the one with the lowest anchor
    index. *)
Theorem getValidServerConfig_groups (serverConfigs : list serverConfigV13)
    (errs : list (option error)) :
  length errs = length serverConfigs →
  let vs := votes serverConfigs errs in
  ∃ configCounter,
    getValidServerConfig_count zeroServerConfig serverConfigs errs
    = Some configCounter
    ∧ length configCounter = length serverConfigs
    ∧ (∀ i c, vs !! i = Some (Some c) →
              ∃ a, (a ≤ i)%nat ∧ isAnchor vs a c
                   ∧ ∀ a', isAnchor vs a' c → a' = a)
    ∧ (∀ a c, isAnchor vs a c →
              configCounter !! a = Some (agreement vs c))
    ∧ (∀ a, (a < length serverConfigs)%nat → (∀ c, ¬ isAnchor vs a c) →
            configCounter !! a = Some 0)
    ∧ let st := getValidServerConfig_select zeroServerConfig serverConfigs
                                            configCounter in
      st.1 = maxAgreement vs
      ∧ (0 < maxAgreement vs →
         ∃ a, isAnchor vs a st.2
              ∧ configCounter !! a = Some (maxAgreement vs)
              ∧ ∀ b c, isAnchor vs b c →
                       agreement vs c = maxAgreement vs → (a ≤ b)%nat).
Proof.
  intros Hlen vs.
  destruct (getValidServerConfig_outcome serverConfigs errs Hlen)
    as (cc & Hcount & Hcc & Hinv & Hst & Hwin).
  fold vs in Hinv, Hst, Hwin.
  assert (length vs = length serverConfigs) as Hvs by by apply votes_length.
  exists cc. split; [done|]. split; [done|]. split; [|split; [|split]].
  - intros i c Hi.
    destruct (isAnchor_exists vs c) as [a Ha].
    { apply list_elem_of_lookup. eauto. }
    exists a. split; [|split; [done|]].
    + destruct (decide (a ≤ i)%nat) as [|Hgt]; [done|].
      destruct Ha as [_ Hna]. destruct Hna. apply elem_of_take.
      exists i. split; [done|lia].
    + intros a' Ha'. by eapply isAnchor_unique.
  - intros a c Ha. pose proof (isAnchor_lt _ _ _ Ha).
    rewrite Hinv by lia. by rewrite (expectedCounter_anchor _ _ _ Ha).
  - intros a Ha Hna. rewrite Hinv by done.
    by rewrite expectedCounter_not_anchor.
  - split; [done|]. intros Hpos.
    destruct (Hwin Hpos) as (a & Ha & Hagree & Hlow).
    exists a. split; [done|]. split; [|done].
    pose proof (isAnchor_lt _ _ _ Ha).
    rewrite Hinv by lia. rewrite (expectedCounter_anchor _ _ _ Ha). by f_equal.
Qed.

Lemma configQuorum_pos (n : Z) : 0 ≤ n → 1 ≤ configQuorum n.
Proof.
  intros Hn. unfold configQuorum.
  pose proof (Z.quot_pos n 2 Hn). lia.
Qed.

Lemma getValidServerConfig_verdict (serverConfigs : list serverConfigV13)
    (errs : list (option error)) :
  length errs = length serverConfigs →
  let vs := votes serverConfigs errs in
  (configQuorum (len serverConfigs) ≤ maxAgreement vs →
   ∃ c, getValidServerConfig zeroServerConfig serverConfigs errs = Ok c
        ∧ Some c ∈ vs ∧ agreement vs c = maxAgreement vs)
  ∧ (maxAgreement vs < configQuorum (len serverConfigs) →
     getValidServerConfig zeroServerConfig serverConfigs errs
     = Err errXLWriteQuorum).
Proof.
  intros Hlen vs.
  destruct (getValidServerConfig_outcome serverConfigs errs Hlen)
    as (cc & Hcount & Hcc & Hinv & Hst & Hwin).
  fold vs in Hinv, Hst, Hwin.
  unfold getValidServerConfig. rewrite Hcount.
  destruct (getValidServerConfig_select zeroServerConfig serverConfigs cc)
    as [maxOccurrence configJSON]. cbn [fst snd] in Hst, Hwin. subst.
  pose proof (configQuorum_pos (len serverConfigs)) as Hq.
  split; intros Hm.
  - rewrite bool_decide_eq_false_2 by lia.
    destruct Hwin as (a & Ha & Hagree & _); [unfold len in *; lia|].
    exists configJSON. split; [done|]. split; [|done].
    by eapply isAnchor_elem.
  - by rewrite bool_decide_eq_true_2.
Qed.

Lemma getValidServerConfig_example_majority (A B : serverConfigV13) :
  A ≠ B →
  getValidServerConfig zeroServerConfig [A; B; A; A] [None; None; None; None]
  = Ok A.
Proof.
  intros HAB.
  destruct (getValidServerConfig_verdict [A; B; A; A]
              [None; None; None; None] eq_refl) as [Hok _].
  cbn [votes zip_with vote] in Hok.
  assert (agreement [Some A; Some B; Some A; Some A] A = 3) as HA
    by (eval_agreement; done).
  assert (agreement [Some A; Some B; Some A; Some A] B = 1) as HB
    by (eval_agreement; done).
  assert (maxAgreement [Some A; Some B; Some A; Some A] = 3) as Hmax.
  { unfold maxAgreement. cbn [fmap list_fmap foldr]. rewrite HA, HB. done. }
  rewrite Hmax in Hok.
  destruct Hok as (c & -> & Hin & Hc); [done|].
  f_equal. destruct (decide (c = A)) as [|Hne]; [done|].
  assert (c = B) as -> by set_solver. lia.
Qed.

Lemma getValidServerConfig_example_distinct (A B C D : serverConfigV13) :
  A ≠ B → A ≠ C → A ≠ D → B ≠ C → B ≠ D → C ≠ D →
  getValidServerConfig zeroServerConfig [A; B; C; D] [None; None; None; None]
  = Err errXLWriteQuorum.
Proof.
  intros HAB HAC HAD HBC HBD HCD.
  destruct (getValidServerConfig_verdict [A; B; C; D]
              [None; None; None; None] eq_refl) as [_ Herr].
  cbn [votes zip_with vote] in Herr. apply Herr.
  unfold maxAgreement. cbn [fmap list_fmap foldr].
  assert (agreement [Some A; Some B; Some C; Some D] A = 1) as ->
    by (eval_agreement; done).
  assert (agreement [Some A; Some B; Some C; Some D] B = 1) as ->
    by (eval_agreement; done).
  assert (agreement [Some A; Some B; Some C; Some D] C = 1) as ->
    by (eval_agreement; done).
  assert (agreement [Some A; Some B; Some C; Some D] D = 1) as ->
    by (eval_agreement; done).
  done.
Qed.

Lemma getValidServerConfig_example_tie (A B : serverConfigV13) :
  A ≠ B →
  getValidServerConfig zeroServerConfig [A; B; A; B] [None; None; None; None]
  = Err errXLWriteQuorum.
Proof.
  intros HAB.
  destruct (getValidServerConfig_verdict [A; B; A; B]
              [None; None; None; None] eq_refl) as [_ Herr].
  cbn [votes zip_with vote] in Herr. apply Herr.
  unfold maxAgreement. cbn [fmap list_fmap foldr].
  assert (agreement [Some A; Some B; Some A; Some B] A = 2) as ->
    by (eval_agreement; done).
  assert (agreement [Some A; Some B; Some A; Some B] B = 2) as ->
    by (eval_agreement; done).
  done.
Qed.

(** C3. For every cluster size [N ≥ 1], the thresholds computed by the
    aggregators (with Go's truncating division) are: write quorum of config
    reconciliation [⌊N/2⌋+1], read quorum of lock aggregation [⌊N/2⌋+1], read
    quorum of uptime aggregation [⌊N/2⌋], one less than the other two; at
    [N = 1, 2, 3, 4, 5] they are [1, 2, 2, 3, 3], [1, 2, 2, 3, 3] and
    [0, 1, 1, 2, 2]. *)
Theorem quorum_thresholds (N : Z) :
  1 ≤ N →
  configQuorum N = N `div` 2 + 1
  ∧ locksReadQuorum N = N `div` 2 + 1
  ∧ uptimeReadQuorum N = N `div` 2
  ∧ uptimeReadQuorum N = locksReadQuorum N - 1
  ∧ configQuorum <$> [1; 2; 3; 4; 5] = [1; 2; 2; 3; 3]
  ∧ locksReadQuorum <$> [1; 2; 3; 4; 5] = [1; 2; 2; 3; 3]
  ∧ uptimeReadQuorum <$> [1; 2; 3; 4; 5] = [0; 1; 1; 2; 2].
Proof.
  intros HN. unfold configQuorum, locksReadQuorum, uptimeReadQuorum.
  rewrite Z.quot_div_nonneg by lia.
  repeat split; lia.
Qed.

(** C1. [getValidServerConfig] succeeds exactly when the largest number of
    error-free peers agreeing on one snapshot reaches the write quorum
    [⌊N/2⌋+1]; it then returns a snapshot with that largest agreement, and
    otherwise fails with the write-quorum error.  With four peers,
    [A,B,A,A] gives [A], while [A,B,C,D] and [A,B,A,B] fail. *)
Theorem getValidServerConfig_write_quorum
    (serverConfigs : list serverConfigV13) (errs : list (option error)) :
  length errs = length serverConfigs →
  let vs := votes serverConfigs errs in
  let N := len serverConfigs in
  configQuorum N = N `div` 2 + 1
  ∧ (N `div` 2 + 1 ≤ maxAgreement vs →
     ∃ c, getValidServerConfig zeroServerConfig serverConfigs errs = Ok c
          ∧ Some c ∈ vs ∧ agreement vs c = maxAgreement vs)
  ∧ (maxAgreement vs < N `div` 2 + 1 →
     getValidServerConfig zeroServerConfig serverConfigs errs
     = Err errXLWriteQuorum)
  ∧ (∀ A B : serverConfigV13, A ≠ B →
       getValidServerConfig zeroServerConfig [A; B; A; A]
                            [None; None; None; None] = Ok A
       ∧ getValidServerConfig zeroServerConfig [A; B; A; B]
                              [None; None; None; None] = Err errXLWriteQuorum)
  ∧ (∀ A B C D : serverConfigV13,
       A ≠ B → A ≠ C → A ≠ D → B ≠ C → B ≠ D → C ≠ D →
       getValidServerConfig zeroServerConfig [A; B; C; D]
                            [None; None; None; None] = Err errXLWriteQuorum).
Proof.
  intros Hlen vs N.
  assert (configQuorum N = N `div` 2 + 1) as Hq.
  { unfold configQuorum. rewrite Z.quot_div_nonneg; [done| |done].
    unfold N, len. lia. }
  destruct (getValidServerConfig_verdict serverConfigs errs Hlen)
    as [Hok Herr]. fold vs N in Hok, Herr. rewrite Hq in Hok, Herr.
  split; [done|]. split; [done|]. split; [done|]. split.
  - intros A B HAB. split.
    + by apply getValidServerConfig_example_majority.
    + by apply getValidServerConfig_example_tie.
  - intros A B C D. apply getValidServerConfig_example_distinct.
Qed.

(** ** Uptime aggregation *)

Lemma filter_Forall_all {A : Type} (P : A → Prop) `{!∀ x, Decision (P x)}
    (l : list A) :
  Forall P l → filter P l = l.
Proof.
  induction 1 as [|x l Hx _ IH]; [done|].
  by rewrite filter_cons_True, IH.
Qed.

Lemma filter_Forall_none {A : Type} (P : A → Prop) `{!∀ x, Decision (P x)}
    (l : list A) :
  Forall (λ x, ¬ P x) l → filter P l = [].
Proof.
  induction 1 as [|x l Hx _ IH]; [done|].
  by rewrite filter_cons_False.
Qed.

Lemma Sorted_weaken {A : Type} (R R' : relation A) (l : list A) :
  (∀ a b, R a b → R' a b) → Sorted R l → Sorted R' l.
Proof.
  intros HR. induction 1 as [|x l _ IH Hhd]; constructor; [done|].
  destruct Hhd; constructor. by apply HR.
Qed.

Lemma validUptimes_cons (uptime : uptimeEntry) (rest : list uptimeEntry) :
  validUptimes (uptime :: rest)
  = match u_err uptime with
    | None => u_uptime uptime :: validUptimes rest
    | Some _ => validUptimes rest
    end.
Proof.
  unfold validUptimes. rewrite filter_cons.
  destruct (u_err uptime) eqn:He; destruct (decide _); done.
Qed.

Lemma validUptimes_perm (s t : list uptimeEntry) :
  s ≡ₚ t → validUptimes s ≡ₚ validUptimes t.
Proof. intros Hp. unfold validUptimes. by rewrite Hp. Qed.

Lemma validUptimes_sorted (s : list uptimeEntry) :
  Sorted (λ a b, uptimeSlice_Less b a = false) s →
  StronglySorted Z.le (validUptimes s).
Proof.
  intros Hs.
  assert (StronglySorted (λ a b, u_uptime a ≤ u_uptime b) s) as Hss.
  { apply Sorted_StronglySorted; [intros a b c; lia|].
    eapply Sorted_weaken; [|done]. cbn. intros a b Hab.
    unfold uptimeSlice_Less in Hab. apply bool_decide_eq_false in Hab. lia. }
  clear Hs. induction Hss as [|x l Hl IH Hx]; [constructor|].
  rewrite validUptimes_cons. destruct (u_err x); [done|].
  constructor; [done|].
  unfold validUptimes. apply Forall_fmap, Forall_forall.
  intros y [_ Hy]%list_elem_of_filter. cbn.
  by apply (proj1 (Forall_forall _ _) Hx).
Qed.

Lemma isKthSmallest_perm (k : Z) (l l' : list Duration) (u : Duration) :
  l ≡ₚ l' → isKthSmallest k l u → isKthSmallest k l' u.
Proof.
  intros Hp. unfold isKthSmallest, countBelow, countUpTo, len.
  by rewrite Hp.
Qed.

Lemma length_filter_mono {A : Type} (P Q : A → Prop)
    `{!∀ x, Decision (P x)} `{!∀ x, Decision (Q x)} (l : list A) :
  (∀ x, P x → Q x) → (length (filter P l) ≤ length (filter Q l))%nat.
Proof.
  intros HPQ. induction l as [|x l IH]; [done|].
  rewrite !filter_cons.
  destruct (decide (P x)) as [HP|]; destruct (decide (Q x)) as [|HQ];
    cbn [length]; try lia.
  destruct HQ. by apply HPQ.
Qed.

Lemma isKthSmallest_unique (k : Z) (l : list Duration) (u u' : Duration) :
  isKthSmallest k l u → isKthSmallest k l u' → u = u'.
Proof.
  unfold isKthSmallest, countBelow, countUpTo, len.
  intros (_ & Hlo & Hhi) (_ & Hlo' & Hhi').
  destruct (Z.lt_trichotomy u u') as [Hlt|[->|Hgt]]; [|done|].
  - pose proof (length_filter_mono (λ x, x ≤ u) (λ x, x < u') l) as Hm.
    specialize (Hm ltac:(cbn; intros; lia)). lia.
  - pose proof (length_filter_mono (λ x, x ≤ u') (λ x, x < u) l) as Hm.
    specialize (Hm ltac:(cbn; intros; lia)). lia.
Qed.

Lemma sorted_lookup_isKthSmallest (l : list Duration) (i : nat)
    (u : Duration) :
  StronglySorted Z.le l → l !! i = Some u →
  isKthSmallest (Z.of_nat i + 1) l u.
Proof.
  intros Hs Hi. pose proof (lookup_lt_Some _ _ _ Hi) as Hlt.
  split; [apply list_elem_of_lookup; eauto|].
  rewrite <- (take_drop_middle l i u Hi) in Hs |- *.
  apply StronglySorted_app in Hs as (Hle & _ & Hs2).
  apply StronglySorted_cons in Hs2 as [Hge _].
  assert (Forall (λ x, x ≤ u) (take i l)) as Hlow.
  { apply Forall_forall. intros x Hx. apply (Hle x u Hx). left. }
  assert (length (take i l) = i) as Hlen by (rewrite length_take; lia).
  unfold countBelow, countUpTo, len.
  rewrite !filter_app, !length_app, !filter_cons.
  rewrite (filter_Forall_all (λ x, x ≤ u) (take i l) Hlow), Hlen.
  rewrite (filter_Forall_none (λ x, x < u) (drop (S i) l)).
  2:{ eapply Forall_impl; [exact Hge|]. cbn. intros; lia. }
  pose proof (length_filter (λ x, x < u) (take i l)).
  destruct (decide (u < u)); [lia|]. destruct (decide (u ≤ u)); [|lia].
  cbn [length]. lia.
Qed.

Lemma getPeerUptimes_scan_spec (readQuorum validCount : Z)
    (uptimes : list uptimeEntry) :
  match validUptimes uptimes
        !! Z.to_nat (Z.max (readQuorum - validCount) 1 - 1) with
  | Some u =>
    getPeerUptimes_scan readQuorum validCount uptimes
    = (Z.max readQuorum (validCount + 1), u)
  | None =>
    getPeerUptimes_scan readQuorum validCount uptimes
    = (validCount + len (validUptimes uptimes), 0)
  end.
Proof.
  revert validCount. induction uptimes as [|e rest IH]; intros vc.
  - cbn. f_equal. unfold len. cbn. lia.
  - rewrite validUptimes_cons. cbn [getPeerUptimes_scan].
    destruct (u_err e); [apply IH|].
    case_bool_decide as Hq.
    + replace (Z.to_nat (Z.max (readQuorum - vc) 1 - 1)) with 0%nat by lia.
      cbn. f_equal. lia.
    + specialize (IH (vc + 1)).
      replace (Z.to_nat (Z.max (readQuorum - vc) 1 - 1))
        with (S (Z.to_nat (Z.max (readQuorum - (vc + 1)) 1 - 1))) by lia.
      cbn [lookup list_lookup].
      destruct (validUptimes rest !! _) as [u|]; rewrite IH; f_equal.
      * lia.
      * unfold len. cbn [length]. lia.
Qed.

Lemma uptimeReadQuorum_nonneg (n : Z) : 0 ≤ n → 0 ≤ uptimeReadQuorum n.
Proof. intros Hn. unfold uptimeReadQuorum. by apply Z.quot_pos. Qed.

Lemma getPeerUptimes_gather_length w peers :
  length (getPeerUptimes_gather w peers) = length peers.
Proof. unfold getPeerUptimes_gather. by rewrite length_fmap. Qed.

(** The outcome of [getPeerUptimes] in a distributed deployment, by the
    number of peers that reported an uptime. *)
Lemma getPeerUptimes_dist (sort_Sort : list uptimeEntry → list uptimeEntry)
    w peers :
  sortsUptimes sort_Sort → globalIsDistXL w = true →
  let valid := validUptimes (getPeerUptimes_gather w peers) in
  let readQuorum := uptimeReadQuorum (len peers) in
  (len valid < readQuorum →
   getPeerUptimes sort_Sort w peers = Err InsufficientReadQuorum)
  ∧ (1 ≤ readQuorum ≤ len valid →
     ∃ u, getPeerUptimes sort_Sort w peers = Ok u
          ∧ isKthSmallest readQuorum valid u)
  ∧ (readQuorum = 0 → valid = [] → getPeerUptimes sort_Sort w peers = Ok 0)
  ∧ (readQuorum = 0 → valid ≠ [] →
     ∃ u, getPeerUptimes sort_Sort w peers = Ok u ∧ isKthSmallest 1 valid u).
Proof.
  intros Hsort Hdist valid q.
  unfold getPeerUptimes. rewrite Hdist. cbn [negb]. cbn zeta.
  set (uptimes := getPeerUptimes_gather w peers) in *.
  assert (len uptimes = len peers) as ->.
  { unfold len, uptimes. by rewrite getPeerUptimes_gather_length. }
  fold q.
  destruct (Hsort uptimes) as [Hperm Hsorted].
  set (s := sort_Sort uptimes) in *.
  pose proof (validUptimes_perm _ _ Hperm) as Hvperm. fold valid in Hvperm.
  pose proof (validUptimes_sorted _ Hsorted) as Hvsorted.
  assert (len (validUptimes s) = len valid) as Hvlen.
  { unfold len. by rewrite Hvperm. }
  assert (0 ≤ q) as Hq by (apply uptimeReadQuorum_nonneg; unfold len; lia).
  pose proof (getPeerUptimes_scan_spec q 0 s) as Hscan.
  rewrite Z.sub_0_r in Hscan.
  destruct (validUptimes s !! Z.to_nat (Z.max q 1 - 1)) as [u|] eqn:Hlk.
  - rewrite Hscan. rewrite bool_decide_eq_false_2 by lia.
    pose proof (lookup_lt_Some _ _ _ Hlk) as Hlt.
    pose proof (sorted_lookup_isKthSmallest _ _ _ Hvsorted Hlk) as Hkth.
    apply (isKthSmallest_perm _ _ _ _ Hvperm) in Hkth.
    replace (Z.of_nat (Z.to_nat (Z.max q 1 - 1)) + 1) with (Z.max q 1)
      in Hkth by lia.
    unfold len in Hvlen.
    split; [intros; unfold len in *; lia|].
    split; [|split].
    + intros [Hq1 _]. exists u. split; [done|].
      by replace (Z.max q 1) with q in Hkth by lia.
    + intros _ Hnil. rewrite Hnil in Hvlen. cbn in Hvlen. lia.
    + intros Hq0 _. exists u. split; [done|].
      by replace (Z.max q 1) with 1 in Hkth by lia.
  - rewrite Hscan. apply lookup_ge_None_1 in Hlk.
    rewrite Z.add_0_l, Hvlen. unfold len in Hvlen.
    split; [intros Hlow; by rewrite bool_decide_eq_true_2|].
    split; [|split].
    + intros [Hq1 Hle]. unfold len in Hle. lia.
    + intros Hq0 Hnil. rewrite bool_decide_eq_false_2; [done|].
      rewrite Hnil. unfold len. cbn. lia.
    + intros Hq0 Hne. destruct valid; [done|]. cbn in Hvlen. lia.
Qed.

Lemma getPeerUptimes_example (sort_Sort : list uptimeEntry → list uptimeEntry)
    w peers :
  sortsUptimes sort_Sort → globalIsDistXL w = true →
  getPeerUptimes_gather w peers
  = (λ m, {| u_err := None; u_uptime := m * Minute |}) <$> [10; 20; 30; 40; 50] →
  getPeerUptimes sort_Sort w peers = Ok (20 * Minute).
Proof.
  intros Hsort Hdist Hgather.
  destruct (getPeerUptimes_dist sort_Sort w peers Hsort Hdist)
    as (_ & Hkth & _).
  assert (length peers = 5%nat) as Hlen.
  { by rewrite <- (getPeerUptimes_gather_length w), Hgather. }
  rewrite Hgather in Hkth. unfold len in Hkth. rewrite Hlen in Hkth.
  destruct Hkth as (u & -> & Hin & Hcount); [by vm_compute|].
  f_equal. vm_compute in Hin.
  repeat (apply elem_of_cons in Hin as [->|Hin]); try done;
    [..|by apply not_elem_of_nil in Hin];
    vm_compute in Hcount; destruct Hcount as [Hlo Hhi];
    first [ discriminate Hlo | by destruct Hhi ].
Qed.

(** C2 (amended). In a distributed deployment with [N] peers,
    [getPeerUptimes] fails with the read-quorum error exactly when fewer
    than [⌊N/2⌋] peers report an uptime.  When [⌊N/2⌋ ≥ 1] (that is, [N ≥ 2])
    and at least that many peers succeed, it returns the [⌊N/2⌋]-th smallest
    of the successfully reported uptimes; with five peers reporting
    10, 20, 30, 40 and 50 minutes the result is 20 minutes. *)
Theorem getPeerUptimes_read_quorum
    (sort_Sort : list uptimeEntry → list uptimeEntry) w peers :
  sortsUptimes sort_Sort → globalIsDistXL w = true →
  let valid := validUptimes (getPeerUptimes_gather w peers) in
  let N := len peers in
  uptimeReadQuorum N = N `div` 2
  ∧ (getPeerUptimes sort_Sort w peers = Err InsufficientReadQuorum
     ↔ len valid < N `div` 2)
  ∧ (1 ≤ N `div` 2 ≤ len valid →
     ∃ u, getPeerUptimes sort_Sort w peers = Ok u
          ∧ isKthSmallest (N `div` 2) valid u
          ∧ ∀ u', isKthSmallest (N `div` 2) valid u' → u' = u)
  ∧ (getPeerUptimes_gather w peers
     = (λ m, {| u_err := None; u_uptime := m * Minute |})
         <$> [10; 20; 30; 40; 50] →
     getPeerUptimes sort_Sort w peers = Ok (20 * Minute)).
Proof.
  intros Hsort Hdist valid N.
  assert (uptimeReadQuorum N = N `div` 2) as Hq.
  { unfold uptimeReadQuorum. apply Z.quot_div_nonneg; [unfold N, len|]; lia. }
  destruct (getPeerUptimes_dist sort_Sort w peers Hsort Hdist)
    as (Hlow & Hkth & Hnil & Hone).
  fold valid N in Hlow, Hkth, Hnil, Hone.
  rewrite Hq in Hlow, Hkth, Hnil, Hone.
  split; [done|]. split; [|split].
  - split; [|done]. intros Herr.
    destruct (decide (len valid < N `div` 2)) as [|Hge]; [done|].
    assert (0 ≤ N `div` 2) by (apply Z.div_pos; unfold N, len; lia).
    destruct (decide (N `div` 2 = 0)) as [Hz|Hnz].
    + destruct valid as [|v valid'] eqn:Hv.
      * rewrite Hnil in Herr by done. done.
      * destruct Hone as (u & Hu & _); [done|done|].
        rewrite Hu in Herr. done.
    + destruct Hkth as (u & Hu & _); [lia|]. rewrite Hu in Herr. done.
  - intros Hquorum. destruct (Hkth Hquorum) as (u & Hu & Hsmallest).
    exists u. split; [done|]. split; [done|].
    intros u' Hu'. by eapply isKthSmallest_unique.
  - by apply getPeerUptimes_example.
Qed.

(** C9. In a single-node deployment [getPeerUptimes] always succeeds with
    [now - globalBootTime], whatever the peers are and whether or not a boot
    time has been recorded; the error [errServerNotInitialized] that the
    local runner's [Uptime] reports for a zero boot time does not reach the
    caller. *)
Theorem getPeerUptimes_single_node
    (json_Marshal : serverConfigV13 → list Byte.byte * option error)
    (sort_Sort : list uptimeEntry → list uptimeEntry) w peers :
  globalIsDistXL w = false →
  getPeerUptimes sort_Sort w peers
  = Ok (Time_Sub (now w) (globalBootTime w))
  ∧ (Time_IsZero (globalBootTime w) = true →
     Uptime (localAdminClient json_Marshal) w
     = (0, Some errServerNotInitialized)
     ∧ getPeerUptimes sort_Sort w peers = Ok (Time_Sub (now w) 0)).
Proof.
  intros Hsingle. unfold getPeerUptimes. rewrite Hsingle. cbn [negb].
  split; [done|]. intros Hzero.
  cbn. unfold localAdminClient_Uptime. rewrite Hzero. split; [done|].
  unfold Time_IsZero in Hzero. apply bool_decide_eq_true in Hzero.
  by rewrite Hzero.
Qed.

(** ** Reinitialising disks *)

(** C6. [reInitPeerDisks] reports success for every peer sequence and every
    combination of per-peer results: the errors gathered from the peers,
    one per peer, play no part in what it returns. *)
Theorem reInitPeerDisks_always_succeeds w peers :
  reInitPeerDisks w peers = None
  ∧ length (reInitPeerDisks_errs w peers) = length peers
  ∧ (∀ i p, peers !! i = Some p →
            reInitPeerDisks_errs w peers !! i
            = Some (ReInitDisks (cmdRunner p) w))
  ∧ ((∀ p, p ∈ peers → ReInitDisks (cmdRunner p) w ≠ None) →
     Forall (λ e, e ≠ None) (reInitPeerDisks_errs w peers)
     ∧ reInitPeerDisks w peers = None).
Proof.
  unfold reInitPeerDisks, reInitPeerDisks_errs.
  split; [done|]. split; [by rewrite length_fmap|]. split.
  - intros i p Hp. by rewrite list_lookup_fmap, Hp.
  - intros Hfail. split; [|done].
    apply Forall_fmap, Forall_forall. intros p Hp. by apply Hfail.
Qed.

(** ** Config aggregation *)

Lemma getPeerConfig_unmarshal_error
    (json_Unmarshal : list Byte.byte → serverConfigV13 + error)
    (results : list (list Byte.byte * option error)) (i : nat)
    (configBytes : list Byte.byte) (err : error) :
  results !! i = Some (configBytes, None) →
  json_Unmarshal configBytes = inr err →
  (∀ j b, (j < i)%nat → results !! j = Some (b, None) →
          ∃ c, json_Unmarshal b = inl c) →
  getPeerConfig_unmarshal zeroServerConfig json_Unmarshal results = inr err.
Proof.
  revert i. induction results as [|[b e] rest IH]; intros i Hi Herr Hbefore;
    [done|].
  destruct i as [|i]; cbn in Hi.
  - simplify_eq. cbn. by rewrite Herr.
  - assert (getPeerConfig_unmarshal zeroServerConfig json_Unmarshal rest
            = inr err) as Hrest.
    { apply (IH i); [done|done|]. intros j b' Hj Hb'.
      apply (Hbefore (S j) b'); [lia|done]. }
    cbn. destruct e as [e|]; [by rewrite Hrest|].
    destruct (Hbefore 0%nat b) as [c Hc]; [lia|done|].
    by rewrite Hc, Hrest.
Qed.

(** C7. In a distributed deployment, when the payload of an error-free peer
    fails to decode (and the payloads of the error-free peers before it
    decode), [getPeerConfig] returns that decoding error at once: whatever
    the other peers returned, no vote is held. *)
Theorem getPeerConfig_decode_error_aborts
    (json_Marshal : serverConfigV13 → list Byte.byte * option error)
    (json_Unmarshal : list Byte.byte → serverConfigV13 + error)
    w peers (i : nat) (configBytes : list Byte.byte) (err : error) :
  globalIsDistXL w = true →
  getPeerConfig_gather w peers !! i = Some (configBytes, None) →
  json_Unmarshal configBytes = inr err →
  (∀ j b, (j < i)%nat → getPeerConfig_gather w peers !! j = Some (b, None) →
          ∃ c, json_Unmarshal b = inl c) →
  getPeerConfig zeroServerConfig json_Marshal json_Unmarshal w peers
  = Err err.
Proof.
  intros Hdist Hi Herr Hbefore. unfold getPeerConfig.
  rewrite Hdist. cbn [negb].
  by rewrite (getPeerConfig_unmarshal_error _ _ i configBytes err).
Qed.

(** ** Lock aggregation *)

Lemma occurrences_nonneg (errs : list (option error)) (v : option error) :
  0 ≤ occurrences errs v.
Proof. unfold occurrences, len. lia. Qed.









Lemma concat_Permutation {A : Type} (ls ls' : list (list A)) :
  ls ≡ₚ ls' → concat ls ≡ₚ concat ls'.
Proof.
  induction 1 as [|x l l' _ IH|x y l|l l' l'' _ IH1 _ IH2]; cbn.
  - done.
  - by rewrite IH.
  - rewrite !app_assoc. by rewrite (Permutation_app_comm y x).
  - by rewrite IH1.
Qed.

Lemma foldl_app_concat {A B : Type} (f : B → list A) (acc : list A)
    (l : list B) :
  foldl (λ acc x, acc ++ f x) acc l = acc ++ concat (f <$> l).
Proof.
  revert acc. induction l as [|x l IH]; intros acc; cbn.
  - by rewrite app_nil_r.
  - by rewrite IH, app_assoc.
Qed.

Lemma paramLockMap_append_flat (m : gmap nsParam (list VolumeLockInfo))
    (lockInfo : VolumeLockInfo) :
  concat ((map_to_list (paramLockMap_append m lockInfo)).*2)
  ≡ₚ concat ((map_to_list m).*2) ++ [lockInfo].
Proof.
  unfold paramLockMap_append.
  set (param := {| volume := Bucket lockInfo; path := Object lockInfo |}).
  destruct (m !! param) as [volLocks|] eqn:Hm; cbn [default].
  - rewrite <- insert_delete_eq.
    rewrite map_to_list_insert by apply lookup_delete_eq.
    rewrite <- (map_to_list_delete m param volLocks Hm).
    cbn. rewrite <- !app_assoc. apply Permutation_app_head.
    apply Permutation_app_comm.
  - rewrite map_to_list_insert by done. cbn.
    apply Permutation_cons_append.
Qed.

Lemma groupLocks_flat (allLocks : list (list VolumeLockInfo)) :
  concat ((map_to_list (groupLocks allLocks)).*2) ≡ₚ concat allLocks.
Proof.
  unfold groupLocks.
  assert (∀ nodeLocks m,
            concat ((map_to_list (foldl paramLockMap_append m nodeLocks)).*2)
            ≡ₚ concat ((map_to_list m).*2) ++ nodeLocks) as Hinner.
  { induction nodeLocks as [|x nodeLocks IH]; intros m; cbn [foldl].
    - by rewrite app_nil_r.
    - rewrite IH, paramLockMap_append_flat. by rewrite <- app_assoc. }
  assert (∀ m,
            concat ((map_to_list
                       (foldl (λ m nodeLocks,
                                 foldl paramLockMap_append m nodeLocks)
                              m allLocks)).*2)
            ≡ₚ concat ((map_to_list m).*2) ++ concat allLocks) as Houter.
  { induction allLocks as [|nodeLocks allLocks IH]; intros m; cbn [foldl].
    - cbn. by rewrite app_nil_r.
    - rewrite IH, Hinner. cbn. by rewrite <- app_assoc. }
  rewrite Houter. by rewrite map_to_list_empty.
Qed.

Lemma flattenLocks_perm
    (mapRange : gmap nsParam (list VolumeLockInfo) →
                list (nsParam * list VolumeLockInfo))
    (allLocks : list (list VolumeLockInfo)) :
  rangesOverMap mapRange →
  flattenLocks mapRange (groupLocks allLocks) ≡ₚ concat allLocks.
Proof.
  intros Hrange. unfold flattenLocks.
  rewrite (foldl_app_concat snd). cbn.
  rewrite <- (groupLocks_flat allLocks).
  apply concat_Permutation. by rewrite (Hrange _).
Qed.


End Properties.

(** * The statements at work on the example cluster *)

Lemma Cluster_sort_sorts : sortsUptimes Cluster.sort.
Proof.
  intros l. split; [apply merge_sort_Permutation|].
  apply (Sorted_weaken Cluster.uptimeLe).
  - intros a b Hab. unfold Cluster.uptimeLe in Hab.
    unfold uptimeSlice_Less. apply bool_decide_eq_false. lia.
  - apply Sorted_merge_sort. intros a b. unfold Cluster.uptimeLe. lia.
Qed.

Lemma Cluster_mapRange_ranges : rangesOverMap Cluster.mapRange.
Proof. intros m. done. Qed.



Lemma getValidServerConfig_write_quorum_witness :
  length [None; None; None; @None error]
  = length ["A"; "B"; "A"; "A"]
  ∧ getValidServerConfig "" ["A"; "B"; "A"; "A"] [None; None; None; None]
    = Ok "A"
  ∧ ∃ c, getValidServerConfig "" ["A"; "B"; "A"; "A"]
                              [None; None; None; None] = Ok c
         ∧ agreement (votes ["A"; "B"; "A"; "A"] [None; None; None; None]) c
           = 3.
Proof.
  pose proof (getValidServerConfig_write_quorum
                "" ["A"; "B"; "A"; "A"] [None; None; None; None] eq_refl)
    as (_ & Hok & _ & Hex & _).
  split; [reflexivity|]. split.
  - apply (Hex "A" "B"). discriminate.
  - destruct Hok as (c & Hc & _ & Hagree); [by vm_compute|].
    exists c. split; [exact Hc|]. rewrite Hagree. reflexivity.
Defined.

Lemma getPeerUptimes_read_quorum_witness :
  sortsUptimes Cluster.sort
  ∧ globalIsDistXL Cluster.healthy = true
  ∧ getPeerUptimes Cluster.sort Cluster.healthy
                   (Cluster.peers Cluster.healthy)
    = Ok (20 * Minute).
Proof.
  split; [exact Cluster_sort_sorts|]. split; [reflexivity|].
  apply (getPeerUptimes_read_quorum Cluster.sort Cluster.healthy
           (Cluster.peers Cluster.healthy) Cluster_sort_sorts eq_refl).
  reflexivity.
Defined.

Lemma getPeerUptimes_one_failed_peer :
  globalIsDistXL (Cluster.booting true) = true
  ∧ validUptimes (getPeerUptimes_gather (Cluster.booting true)
                                        [Cluster.localPeer]) = []
  ∧ uptimeReadQuorum (len [Cluster.localPeer]) = 0
  ∧ getPeerUptimes Cluster.sort (Cluster.booting true) [Cluster.localPeer]
    = Ok 0
  ∧ ¬ ∃ u, getPeerUptimes Cluster.sort (Cluster.booting true)
                          [Cluster.localPeer] = Ok u
           ∧ isKthSmallest
               (uptimeReadQuorum (len [Cluster.localPeer]))
               (validUptimes (getPeerUptimes_gather (Cluster.booting true)
                                                    [Cluster.localPeer]))
               u.
Proof.
  split; [reflexivity|]. split; [reflexivity|]. split; [reflexivity|].
  split; [reflexivity|].
  intros (u & _ & Hin & _). vm_compute in Hin. by apply not_elem_of_nil in Hin.
Qed.

Lemma quorum_thresholds_witness :
  1 ≤ 4
  ∧ configQuorum 4 = 3 ∧ locksReadQuorum 4 = 3 ∧ uptimeReadQuorum 4 = 2.
Proof.
  assert (1 ≤ 4) as H by lia.
  destruct (quorum_thresholds 4 H) as (Hc & Hl & Hu & _).
  split; [exact H|]. split; [exact Hc|]. split; [exact Hl|exact Hu].
Defined.

Lemma getValidServerConfig_groups_witness :
  length [None; Some (rpcError "connection refused"); None; None; None]
  = length ["A"; "A"; "B"; "A"; "B"]
  ∧ ∃ configCounter,
      getValidServerConfig_count
        "" ["A"; "A"; "B"; "A"; "B"]
        [None; Some (rpcError "connection refused"); None; None; None]
      = Some configCounter
      ∧ configCounter !! 0%nat = Some 2
      ∧ configCounter !! 1%nat = Some 0
      ∧ configCounter !! 2%nat = Some 2
      ∧ (getValidServerConfig_select "" ["A"; "A"; "B"; "A"; "B"]
                                     configCounter).2 = "A".
Proof.
  split; [reflexivity|].
  destruct (getValidServerConfig_groups
              "" ["A"; "A"; "B"; "A"; "B"]
              [None; Some (rpcError "connection refused"); None; None; None]
              eq_refl)
    as (cc & Hcount & _ & _ & Hanchor & Hzero & _ & _).
  exists cc. split; [exact Hcount|].
  vm_compute in Hcount. injection Hcount as <-.
  repeat split; reflexivity.
Defined.



Lemma getPeerConfig_decode_error_aborts_witness :
  globalIsDistXL Cluster.garbled3 = true
  ∧ getPeerConfig_gather Cluster.garbled3 (Cluster.peers Cluster.garbled3)
    !! 2%nat = Some ([], None)
  ∧ Cluster.unmarshal []
    = inr (jsonError "unexpected end of JSON input")
  ∧ getPeerConfig "" Cluster.marshal Cluster.unmarshal Cluster.garbled3
                  (Cluster.peers Cluster.garbled3)
    = Err (jsonError "unexpected end of JSON input").
Proof.
  split; [reflexivity|]. split; [reflexivity|]. split; [reflexivity|].
  apply (getPeerConfig_decode_error_aborts
           "" Cluster.marshal Cluster.unmarshal Cluster.garbled3
           (Cluster.peers Cluster.garbled3) 2 []
           (jsonError "unexpected end of JSON input"));
    [reflexivity|reflexivity|reflexivity|].
  intros j b Hj Hb. destruct j as [|[|j]]; [| |lia];
    vm_compute in Hb; injection Hb as <-; eexists; reflexivity.
Defined.

Lemma getPeerUptimes_single_node_witness :
  globalIsDistXL (Cluster.booting false) = false
  ∧ getPeerUptimes Cluster.sort (Cluster.booting false)
                   (Cluster.peers (Cluster.booting false))
    = Ok (10 * Minute)
  ∧ Uptime (localAdminClient Cluster.marshal) (Cluster.booting false)
    = (0, Some errServerNotInitialized).
Proof.
  destruct (getPeerUptimes_single_node
              Cluster.marshal Cluster.sort (Cluster.booting false)
              (Cluster.peers (Cluster.booting false)) eq_refl)
    as [Hup Hzero].
  split; [reflexivity|]. split; [exact Hup|].
  destruct (Hzero eq_refl) as [Herr _]. exact Herr.
Defined.

(** * Further properties of the code *)

Section Reconciliation.

Context {serverConfigV13 : Type} `{!EqDecision serverConfigV13}.
Variable zeroServerConfig : serverConfigV13.

#[local] Instance serverConfigV13_default' : Inhabited serverConfigV13 :=
  serverConfigV13_inhabited zeroServerConfig.

Implicit Types (vs l : list (option serverConfigV13)) (c : serverConfigV13).

(** ** Bounds of [errs] *)

Lemma foldl_ext_elem {A B : Type} (f g : A → B → A) (a : A) (xs : list B) :
  (∀ a x, x ∈ xs → f a x = g a x) → foldl f a xs = foldl g a xs.
Proof.
  revert a. induction xs as [|x xs IH]; intros a Hfg; [done|].
  cbn. rewrite Hfg by left. apply IH. intros a' y Hy. apply Hfg. by right.
Qed.

Lemma getValidServerConfig_count_step_None
    (serverConfigs : list serverConfigV13) (errs : list (option error))
    (idxs : list nat) :
  foldl (getValidServerConfig_count_step zeroServerConfig serverConfigs errs)
        None idxs = None.
Proof. induction idxs as [|i idxs IH]; [done|]. cbn. exact IH. Qed.

Lemma getValidServerConfig_count_short
    (serverConfigs : list serverConfigV13) (errs : list (option error)) :
  (length errs < length serverConfigs)%nat →
  getValidServerConfig_count zeroServerConfig serverConfigs errs = None.
Proof.
  intros Hlt. unfold getValidServerConfig_count.
  replace (length serverConfigs)
    with (length errs + S (length serverConfigs - S (length errs)))%nat
    at 2 by lia.
  rewrite seq_app, foldl_app. cbn [seq foldl].
  assert (∀ st, getValidServerConfig_count_step zeroServerConfig
                  serverConfigs errs st (0 + length errs) = None) as ->.
  { intros [cc|]; [|done]. cbn.
    by rewrite lookup_ge_None_2 by lia. }
  apply getValidServerConfig_count_step_None.
Qed.

Lemma getValidServerConfig_count_take
    (serverConfigs : list serverConfigV13) (errs : list (option error)) :
  getValidServerConfig_count zeroServerConfig serverConfigs errs
  = getValidServerConfig_count zeroServerConfig serverConfigs
      (take (length serverConfigs) errs).
Proof.
  unfold getValidServerConfig_count. apply foldl_ext_elem.
  intros st i Hi%elem_of_seq.
  unfold getValidServerConfig_count_step.
  rewrite lookup_take_lt by lia. done.
Qed.

(** ** The errors slice may be longer than the configs, never shorter *)

(** X1. [getValidServerConfig] panics exactly when [errs] is shorter than
    [serverConfigs]; entries of [errs] beyond [len(serverConfigs)] are never
    read. *)
Theorem getValidServerConfig_errs_bounds
    (serverConfigs : list serverConfigV13) (errs : list (option error)) :
  (getValidServerConfig zeroServerConfig serverConfigs errs = Panic
   ↔ (length errs < length serverConfigs)%nat)
  ∧ getValidServerConfig zeroServerConfig serverConfigs errs
    = getValidServerConfig zeroServerConfig serverConfigs
        (take (length serverConfigs) errs).
Proof.
  assert (getValidServerConfig zeroServerConfig serverConfigs errs
          = getValidServerConfig zeroServerConfig serverConfigs
              (take (length serverConfigs) errs)) as Htake.
  { unfold getValidServerConfig.
    by rewrite getValidServerConfig_count_take. }
  split; [|done]. split.
  - intros Hpanic.
    destruct (decide (length errs < length serverConfigs)%nat) as [|Hge];
      [done|].
    rewrite Htake in Hpanic.
    destruct (getValidServerConfig_outcome zeroServerConfig serverConfigs
                (take (length serverConfigs) errs))
      as (cc & Hcount & _); [rewrite length_take; lia|].
    unfold getValidServerConfig in Hpanic. rewrite Hcount in Hpanic.
    destruct (getValidServerConfig_select _ _ _).
    by case_bool_decide.
  - intros Hlt. unfold getValidServerConfig.
    by rewrite getValidServerConfig_count_short.
Qed.

(** ** A strict majority decides *)

Lemma agreement_disjoint l c c' :
  c ≠ c' → agreement l c + agreement l c' ≤ len l.
Proof.
  intros Hne. unfold agreement, len.
  induction l as [|x l IH]; [done|].
  rewrite !filter_cons. cbn [length].
  destruct (decide (x = Some c)); destruct (decide (x = Some c'));
    cbn [length]; simplify_eq; lia.
Qed.

Lemma castVotes_snoc l (v : option serverConfigV13) :
  castVotes (l ++ [v])
  = castVotes l ++ match v with Some c => [c] | None => [] end.
Proof. unfold castVotes. rewrite omap_app. by destruct v. Qed.

Lemma castVotes_elem l c : c ∈ castVotes l ↔ Some c ∈ l.
Proof.
  unfold castVotes. rewrite list_elem_of_omap. split.
  - intros (x & Hx & Heq). cbn in Heq. by subst.
  - intros Hin. by exists (Some c).
Qed.

Lemma agreement_le_castVotes l c : agreement l c ≤ len (castVotes l).
Proof.
  unfold agreement, len, castVotes.
  induction l as [|x l IH]; [done|].
  rewrite filter_cons. destruct (decide (x = Some c)) as [->|]; cbn.
  - cbn in IH. lia.
  - destruct x; cbn; lia.
Qed.

Lemma getValidServerConfig_decides
    (serverConfigs : list serverConfigV13) (errs : list (option error)) :
  length errs = length serverConfigs →
  let vs := votes serverConfigs errs in
  let quorum := configQuorum (len serverConfigs) in
  (∀ c, quorum ≤ agreement vs c →
        getValidServerConfig zeroServerConfig serverConfigs errs = Ok c)
  ∧ ((∀ c, agreement vs c < quorum) →
     getValidServerConfig zeroServerConfig serverConfigs errs
     = Err errXLWriteQuorum).
Proof.
  intros Hlen vs quorum.
  destruct (getValidServerConfig_verdict zeroServerConfig serverConfigs errs
              Hlen) as [Hok Herr]. fold vs quorum in Hok, Herr.
  assert (len vs = len serverConfigs) as Hvs.
  { unfold len, vs. by rewrite votes_length. }
  assert (len serverConfigs < 2 * quorum) as Hmaj.
  { unfold quorum, configQuorum.
    rewrite Z.quot_div_nonneg by (unfold len; lia).
    pose proof (Z.mod_pos_bound (len serverConfigs) 2).
    pose proof (Z.div_mod (len serverConfigs) 2). lia. }
  assert (1 ≤ quorum) as Hq1.
  { apply configQuorum_pos. unfold len. lia. }
  split.
  - intros c Hc.
    assert (Some c ∈ vs) as Hin.
    { destruct (decide (Some c ∈ vs)) as [|Hnin]; [done|].
      rewrite agreement_zero in Hc by done. lia. }
    pose proof (maxAgreement_ge vs c Hin) as Hle.
    destruct Hok as (c' & -> & _ & Hc'); [lia|]. f_equal.
    destruct (decide (c' = c)) as [|Hne]; [done|].
    pose proof (agreement_disjoint vs c' c Hne). lia.
  - intros Hall. apply Herr.
    destruct (maxAgreement_attained vs) as [->|(c & _ & <-)]; [lia|].
    apply Hall.
Qed.

(** X2. With one error per config, [getValidServerConfig] returns [c]
    exactly when at least [len(serverConfigs)/2 + 1] peers are error-free
    and hold [c]; in particular it fails with [errXLWriteQuorum] whenever
    fewer than that many peers are error-free, and it fails with that error
    exactly when no snapshot is held that often. *)
Theorem getValidServerConfig_majority
    (serverConfigs : list serverConfigV13) (errs : list (option error)) :
  length errs = length serverConfigs →
  let vs := votes serverConfigs errs in
  let quorum := configQuorum (len serverConfigs) in
  (∀ c, getValidServerConfig zeroServerConfig serverConfigs errs = Ok c
        ↔ quorum ≤ agreement vs c)
  ∧ (len (castVotes vs) < quorum →
     getValidServerConfig zeroServerConfig serverConfigs errs
     = Err errXLWriteQuorum)
  ∧ ((∀ c, agreement vs c < quorum) ↔
     getValidServerConfig zeroServerConfig serverConfigs errs
     = Err errXLWriteQuorum).
Proof.
  intros Hlen vs quorum.
  destruct (getValidServerConfig_decides serverConfigs errs Hlen)
    as [Hwin Hfail]. fold vs quorum in Hwin, Hfail.
  destruct (getValidServerConfig_verdict zeroServerConfig serverConfigs errs
              Hlen) as [Hok Herr]. fold vs quorum in Hok, Herr.
  split; [|split].
  - intros c. split; [|apply Hwin]. intros Hc.
    destruct (decide (maxAgreement vs < quorum)) as [Hlow|Hhigh].
    + rewrite Herr in Hc by done. done.
    + destruct Hok as (c' & Hc' & _ & Hagree); [lia|].
      rewrite Hc' in Hc. injection Hc as <-. lia.
  - intros Hfew. apply Hfail. intros c.
    pose proof (agreement_le_castVotes vs c). lia.
  - split; [apply Hfail|].
    intros Herrq c.
    destruct (decide (agreement vs c < quorum)) as [|Hge]; [done|].
    rewrite (Hwin c) in Herrq by lia. done.
Qed.

(** ** The two invariants written in the source *)

Lemma sumCounters_app (l1 l2 : list Z) :
  sumCounters (l1 ++ l2) = sumCounters l1 + sumCounters l2.
Proof.
  unfold sumCounters. induction l1 as [|x l1 IH]; cbn; [done|]. lia.
Qed.

Lemma nonZeroCounters_app (l1 l2 : list Z) :
  nonZeroCounters (l1 ++ l2) = (nonZeroCounters l1 + nonZeroCounters l2)%nat.
Proof. unfold nonZeroCounters. by rewrite filter_app, length_app. Qed.

Lemma fmap_seq_ext {A : Type} (f g : nat → A) (n : nat) :
  (∀ a, (a < n)%nat → f a = g a) → f <$> seq 0 n = g <$> seq 0 n.
Proof.
  intros Hfg. apply list_fmap_ext. intros i a Ha.
  apply lookup_seq in Ha as [-> Hi]. by apply Hfg.
Qed.

Lemma sumCounters_bump (f g : nat → Z) (n k : nat) :
  (k < n)%nat →
  (∀ a, (a < n)%nat → a ≠ k → g a = f a) → g k = f k + 1 →
  sumCounters (g <$> seq 0 n) = sumCounters (f <$> seq 0 n) + 1.
Proof.
  induction n as [|n IH]; intros Hk Hother Hbump; [lia|].
  rewrite !seq_S, !fmap_app, !sumCounters_app. cbn.
  destruct (decide (k = n)) as [->|Hne].
  - rewrite (fmap_seq_ext g f n); [lia|].
    intros a Ha. apply Hother; lia.
  - rewrite IH; [|lia| |done].
    + rewrite (Hother n) by lia. lia.
    + intros a Ha Hak. apply Hother; [lia|done].
Qed.

Lemma nonZeroCounters_same (f g : nat → Z) (n : nat) :
  (∀ a, (a < n)%nat → g a ≠ 0 ↔ f a ≠ 0) →
  nonZeroCounters (g <$> seq 0 n) = nonZeroCounters (f <$> seq 0 n).
Proof.
  induction n as [|n IH]; intros Hsame; [done|].
  rewrite !seq_S, !fmap_app, !nonZeroCounters_app.
  cbn [fmap list_fmap Nat.add].
  rewrite IH by (intros a Ha; apply Hsame; lia). f_equal.
  unfold nonZeroCounters. rewrite !filter_cons, !filter_nil.
  pose proof (Hsame n ltac:(lia)) as Hn.
  destruct (decide (g n ≠ 0)); destruct (decide (f n ≠ 0)); tauto.
Qed.

Lemma remove_dups_snoc_length (xs : list serverConfigV13) c :
  length (remove_dups (xs ++ [c]))
  = (length (remove_dups xs) + if bool_decide (c ∈ xs) then 0 else 1)%nat.
Proof.
  induction xs as [|x xs IH]; [done|].
  cbn [app remove_dups].
  destruct (decide_rel elem_of x (xs ++ [c])) as [H1|H1];
    destruct (decide_rel elem_of x xs) as [H2|H2];
    cbn [length]; rewrite ?IH; repeat case_bool_decide;
    first [lia | exfalso; set_solver].
Qed.

(** The counters of the first [length l] slots once the votes [l] have been
    counted. *)
Lemma expectedCounter_prefix_invariants l :
  sumCounters (expectedCounter l <$> seq 0 (length l)) = len (castVotes l)
  ∧ nonZeroCounters (expectedCounter l <$> seq 0 (length l))
    = length (remove_dups (castVotes l)).
Proof.
  induction l as [|v l [IHsum IHnz]] using rev_ind; [done|].
  rewrite length_app. cbn [length]. rewrite Nat.add_1_r, seq_S.
  rewrite fmap_app, sumCounters_app, nonZeroCounters_app, castVotes_snoc.
  cbn [fmap list_fmap Nat.add].
  destruct v as [c|].
  - rewrite (expectedCounter_snoc_new l c (length l) eq_refl).
    unfold len. rewrite length_app, remove_dups_snoc_length. cbn [length].
    destruct (decide (Some c ∈ l)) as [Hin|Hnin].
    + rewrite bool_decide_eq_true_2 by done.
      rewrite (bool_decide_eq_true_2 (c ∈ castVotes l))
        by by apply castVotes_elem.
      destruct (isAnchor_exists l c Hin) as [k Hk].
      pose proof (isAnchor_lt _ _ _ Hk) as Hlt.
      rewrite (sumCounters_bump (expectedCounter l)
                 (expectedCounter (l ++ [Some c])) (length l) k Hlt).
      * rewrite (nonZeroCounters_same (expectedCounter l)).
        -- unfold len in IHsum. rewrite IHsum, IHnz. cbn.
           split; [lia|]; repeat case_decide; cbn; first [lia|done].
        -- intros a Ha. destruct (decide (a = k)) as [->|Hne].
           ++ rewrite expectedCounter_snoc_anchor by done.
              pose proof (proj2 (expectedCounter_pos l k)
                            (ex_intro _ c Hk)). lia.
           ++ rewrite expectedCounter_snoc_other; [done| |lia].
              intros Ha'. apply Hne. by eapply isAnchor_unique.
      * intros a Ha Hne. apply expectedCounter_snoc_other; [|lia].
        intros Ha'. apply Hne. by eapply isAnchor_unique.
      * by apply expectedCounter_snoc_anchor.
    + rewrite bool_decide_eq_false_2 by done.
      rewrite (bool_decide_eq_false_2 (c ∈ castVotes l))
        by by rewrite castVotes_elem.
      rewrite (fmap_seq_ext (expectedCounter (l ++ [Some c]))
                 (expectedCounter l)).
      * unfold len in IHsum. rewrite IHsum, IHnz. cbn.
        split; [lia|]; repeat case_decide; cbn; first [lia|done].
      * intros a Ha. apply expectedCounter_snoc_other; [|lia].
        intros Ha'. apply Hnin. by eapply isAnchor_elem.
  - rewrite (fmap_seq_ext (expectedCounter (l ++ [None]))
               (expectedCounter l))
      by (intros; apply expectedCounter_snoc_None).
    rewrite expectedCounter_snoc_None, expectedCounter_ge by lia.
    rewrite app_nil_r. unfold len in *. rewrite IHsum, IHnz. cbn.
    split; [lia|]; repeat case_decide; cbn; first [lia|done].
Qed.

Lemma getValidServerConfig_count_prefix
    (serverConfigs : list serverConfigV13) (errs : list (option error))
    (i : nat) :
  length errs = length serverConfigs → (i ≤ length serverConfigs)%nat →
  ∃ configCounter,
    foldl (getValidServerConfig_count_step zeroServerConfig serverConfigs errs)
          (Some (replicate (length serverConfigs) 0)) (seq 0 i)
    = Some configCounter
    ∧ length configCounter = length serverConfigs
    ∧ ∀ a, (a < length serverConfigs)%nat →
           configCounter !!! a
           = expectedCounter (take i (votes serverConfigs errs)) a.
Proof.
  intros Hlen. induction i as [|i IH]; intros Hi.
  - eexists. split; [done|]. split; [by rewrite length_replicate|].
    intros a Ha. rewrite take_0, expectedCounter_ge by (cbn; lia).
    by rewrite lookup_total_replicate_2.
  - destruct IH as (cc & Hcc & Hlencc & Hinv); [lia|].
    rewrite seq_S, foldl_app, Hcc. cbn [foldl Nat.add].
    apply getValidServerConfig_count_step_spec; [done|lia|done|done].
Qed.

(** X3. The two invariants stated in the source of [getValidServerConfig]
    hold at the beginning of every iteration [i] of the counting loop: the
    number of non-zero counters in [configCounter[:i]] is the number of
    distinct configurations among the error-free peers seen so far, and the
    sum of [configCounter[:i]] is the number of error-free peers seen so
    far; the counters from [i] on are still zero. *)
Theorem getValidServerConfig_count_invariants
    (serverConfigs : list serverConfigV13) (errs : list (option error))
    (i : nat) :
  length errs = length serverConfigs → (i ≤ length serverConfigs)%nat →
  let seen := castVotes (take i (votes serverConfigs errs)) in
  ∃ configCounter,
    foldl (getValidServerConfig_count_step zeroServerConfig serverConfigs errs)
          (Some (replicate (length serverConfigs) 0)) (seq 0 i)
    = Some configCounter
    ∧ nonZeroCounters (take i configCounter) = length (remove_dups seen)
    ∧ sumCounters (take i configCounter) = len seen
    ∧ ∀ a, (i ≤ a < length serverConfigs)%nat → configCounter !! a = Some 0.
Proof.
  intros Hlen Hi seen.
  destruct (getValidServerConfig_count_prefix serverConfigs errs i Hlen Hi)
    as (cc & Hcc & Hlencc & Hinv).
  exists cc. split; [done|].
  set (l := take i (votes serverConfigs errs)) in *.
  assert (length l = i) as Hl.
  { unfold l. rewrite length_take, votes_length by done. lia. }
  assert (take i cc = expectedCounter l <$> seq 0 (length l)) as ->.
  { rewrite Hl. apply list_eq. intros a.
    destruct (decide (a < i)%nat) as [Ha|Ha].
    - rewrite lookup_take_lt by done.
      rewrite list_lookup_fmap, lookup_seq_lt by done. cbn.
      rewrite <- Hinv by lia. apply list_lookup_lookup_total_lt. lia.
    - rewrite lookup_take_ge by lia.
      rewrite list_lookup_fmap, lookup_seq_ge by lia. done. }
  destruct (expectedCounter_prefix_invariants l) as [Hsum Hnz].
  split; [done|]. split; [done|].
  intros a Ha. rewrite <- (expectedCounter_ge l a) by lia.
  rewrite <- Hinv by lia. apply list_lookup_lookup_total_lt. lia.
Qed.

End Reconciliation.

Section ConfigAggregation.

Context {serverConfigV13 : Type} `{!EqDecision serverConfigV13}.
Variable zeroServerConfig : serverConfigV13.

Implicit Types (w : World (serverConfigV13 := serverConfigV13)).
Implicit Types
  (peers : list (adminPeer (serverConfigV13 := serverConfigV13))).

Lemma getPeerConfig_unmarshal_length
    (json_Unmarshal : list Byte.byte → serverConfigV13 + error)
    (results : list (list Byte.byte * option error))
    (serverConfigs : list serverConfigV13) :
  getPeerConfig_unmarshal zeroServerConfig json_Unmarshal results
  = inl serverConfigs →
  length serverConfigs = length results.
Proof.
  revert serverConfigs.
  induction results as [|[b [e|]] rest IH]; intros cfgs Hcfgs; cbn in Hcfgs.
  - by simplify_eq.
  - destruct (getPeerConfig_unmarshal _ _ rest) as [cfgs'|]; [|done].
    simplify_eq. cbn. by rewrite (IH cfgs').
  - destruct (json_Unmarshal b); [|done].
    destruct (getPeerConfig_unmarshal _ _ rest) as [cfgs'|]; [|done].
    simplify_eq. cbn. by rewrite (IH cfgs').
Qed.

Lemma getPeerConfig_unmarshal_votes
    (json_Unmarshal : list Byte.byte → serverConfigV13 + error)
    (results : list (list Byte.byte * option error)) :
  (∀ i b, results !! i = Some (b, None) → ∃ c, json_Unmarshal b = inl c) →
  ∃ serverConfigs,
    getPeerConfig_unmarshal zeroServerConfig json_Unmarshal results
    = inl serverConfigs
    ∧ votes serverConfigs (results.*2) = decodedVotes json_Unmarshal results.
Proof.
  induction results as [|[b [e|]] rest IH]; intros Hdec.
  - by exists [].
  - destruct IH as (cfgs & Hcfgs & Hvotes).
    { intros i b' Hi. apply (Hdec (S i) b' Hi). }
    exists (zeroServerConfig :: cfgs). cbn. rewrite Hcfgs. split; [done|].
    unfold votes in *. cbn. by rewrite Hvotes.
  - destruct IH as (cfgs & Hcfgs & Hvotes).
    { intros i b' Hi. apply (Hdec (S i) b' Hi). }
    destruct (Hdec 0%nat b eq_refl) as [c Hc].
    exists (c :: cfgs). cbn. rewrite Hc, Hcfgs. split; [done|].
    unfold votes, decodedVotes in *. cbn. by rewrite Hvotes.
Qed.

Lemma getPeerConfig_dist_no_panic
    (json_Marshal : serverConfigV13 → list Byte.byte * option error)
    (json_Unmarshal : list Byte.byte → serverConfigV13 + error)
    w peers :
  globalIsDistXL w = true →
  getPeerConfig zeroServerConfig json_Marshal json_Unmarshal w peers ≠ Panic.
Proof.
  intros Hdist. unfold getPeerConfig. rewrite Hdist. cbn [negb].
  destruct (getPeerConfig_unmarshal _ _ _) as [cfgs|err] eqn:Hun; [|done].
  apply getPeerConfig_unmarshal_length in Hun.
  destruct (getValidServerConfig_outcome zeroServerConfig cfgs
              ((getPeerConfig_gather w peers).*2))
    as (cc & Hcount & _); [rewrite length_fmap; lia|].
  unfold getValidServerConfig. rewrite Hcount.
  destruct (getValidServerConfig_select _ _ _).
  case_bool_decide; [done|]. by destruct (json_Marshal _) as [? [?|]].
Qed.

(** X4. In a distributed deployment [getPeerConfig] never panics.  When
    every payload received without error decodes, it returns the encoding
    of the configuration that at least [len(peers)/2 + 1] peers returned,
    and fails with the traced [errXLWriteQuorum] when no configuration was
    returned that often. *)
Theorem getPeerConfig_distributed
    (json_Marshal : serverConfigV13 → list Byte.byte * option error)
    (json_Unmarshal : list Byte.byte → serverConfigV13 + error)
    w peers :
  globalIsDistXL w = true →
  let results := getPeerConfig_gather w peers in
  let vs := decodedVotes json_Unmarshal results in
  let quorum := configQuorum (len peers) in
  getPeerConfig zeroServerConfig json_Marshal json_Unmarshal w peers ≠ Panic
  ∧ ((∀ i b, results !! i = Some (b, None) →
             ∃ c, json_Unmarshal b = inl c) →
     (∀ c, quorum ≤ agreement vs c →
           getPeerConfig zeroServerConfig json_Marshal json_Unmarshal w peers
           = match json_Marshal c with
             | (_, Some err) => Err err
             | (config, None) => Ok config
             end)
     ∧ ((∀ c, agreement vs c < quorum) →
        getPeerConfig zeroServerConfig json_Marshal json_Unmarshal w peers
        = Err (traceError errXLWriteQuorum))).
Proof.
  intros Hdist results vs quorum.
  assert (length results = length peers) as Hres.
  { unfold results, getPeerConfig_gather. by rewrite length_fmap. }
  split; [by apply getPeerConfig_dist_no_panic|].
  unfold getPeerConfig. rewrite Hdist. cbn [negb]. fold results.
  - intros Hdec.
    destruct (getPeerConfig_unmarshal_votes json_Unmarshal results Hdec)
      as (cfgs & Hun & Hvotes). rewrite Hun.
    pose proof (getPeerConfig_unmarshal_length _ _ _ Hun) as Hlen.
    destruct (getValidServerConfig_decides zeroServerConfig cfgs (results.*2))
      as (Hwin & Hfail); [rewrite length_fmap; lia|].
    rewrite Hvotes in Hwin, Hfail. fold vs in Hwin, Hfail.
    replace (len cfgs) with (len peers) in Hwin, Hfail
      by (unfold len; lia).
    fold quorum in Hwin, Hfail.
    split.
    + intros c Hc. by rewrite (Hwin c Hc).
    + intros Hnone. by rewrite (Hfail Hnone).
Qed.

End ConfigAggregation.

Section Directory.

Context {serverConfigV13 : Type}.

Implicit Types (w : World (serverConfigV13 := serverConfigV13)).
Implicit Types
  (peers : list (adminPeer (serverConfigV13 := serverConfigV13))).

Lemma firstOccurrences_app (l l' : list string) :
  firstOccurrences (l ++ l')
  = firstOccurrences l ++ filter (λ h, h ∉ l) (firstOccurrences l').
Proof.
  induction l as [|x l IH]; cbn [app firstOccurrences].
  - symmetry. apply filter_Forall_all, Forall_forall.
    intros h _. apply not_elem_of_nil.
  - rewrite IH, filter_app, list_filter_filter. do 2 f_equal.
    apply list_filter_iff. intros h. rewrite not_elem_of_cons. tauto.
Qed.

Lemma firstOccurrences_length (l : list string) :
  (length (firstOccurrences l) ≤ length l)%nat.
Proof.
  induction l as [|x l IH]; cbn; [done|].
  pose proof (length_filter (λ y, y ≠ x) (firstOccurrences l)). lia.
Qed.

(** The directory, peer by peer. *)
Lemma makeAdminPeers_shape
    (json_Marshal : serverConfigV13 → list Byte.byte * option error)
    (adminServiceEndpoint : string) w (serverCred : credential)
    (eps : list url_URL) :
  makeAdminPeers json_Marshal adminServiceEndpoint w serverCred eps
  = {| addr := globalMinioAddr w; cmdRunner := localAdminClient json_Marshal |}
    :: (remotePeerOf adminServiceEndpoint serverCred (globalIsSSL w)
          <$> tail (expectedPeerAddrs (globalMinioAddr w) (Host <$> eps))).
Proof.
  destruct (makeAdminPeers_loop adminServiceEndpoint serverCred (globalIsSSL w)
              eps
              [ {| addr := globalMinioAddr w;
                   cmdRunner := localAdminClient json_Marshal |} ]
              (<[globalMinioAddr w := true]> ∅)) as (new & Hr & Haddr & Hrun).
  { intros h. cbn. rewrite list_elem_of_singleton.
    destruct (decide (globalMinioAddr w = h)) as [->|Hne].
    - rewrite lookup_insert_eq. cbn. tauto.
    - rewrite lookup_insert_ne, lookup_empty by done. cbn.
      split; [done|]. intros ->. done. }
  unfold makeAdminPeers. rewrite Hr. cbn [app]. f_equal.
  assert (new = remotePeerOf adminServiceEndpoint serverCred (globalIsSSL w)
                  <$> (addr <$> new)) as Hnew.
  { clear Hr Haddr. induction Hrun as [|[a r] new Hp _ IH]; [done|].
    cbn in Hp. subst r. cbn. by rewrite <- IH. }
  rewrite Hnew, Haddr. f_equal. unfold expectedPeerAddrs.
  cbn [firstOccurrences tail]. apply list_filter_iff. intros h. cbn.
  by rewrite list_elem_of_singleton.
Qed.

Lemma makeAdminPeers_addrs
    (json_Marshal : serverConfigV13 → list Byte.byte * option error)
    (adminServiceEndpoint : string) w (serverCred : credential)
    (eps : list url_URL) :
  addr <$> makeAdminPeers json_Marshal adminServiceEndpoint w serverCred eps
  = expectedPeerAddrs (globalMinioAddr w) (Host <$> eps).
Proof.
  rewrite makeAdminPeers_shape. cbn [fmap list_fmap addr].
  rewrite <- list_fmap_compose.
  rewrite (list_fmap_ext _ id _ (λ _ _ _, eq_refl)), list_fmap_id.
  done.
Qed.

(** X5. Appending endpoints only appends peers: the directory built from
    [eps ++ eps'] is the directory built from [eps] followed by one remote
    peer for each non-empty host of [eps'] not yet present, at its first
    appearance.  Endpoints whose host is empty or already present change
    nothing, and the directory holds between 1 and [1 + len(eps)] peers. *)
Theorem makeAdminPeers_extends
    (json_Marshal : serverConfigV13 → list Byte.byte * option error)
    (adminServiceEndpoint : string) w (serverCred : credential)
    (eps eps' : list url_URL) :
  let peers :=
    makeAdminPeers json_Marshal adminServiceEndpoint w serverCred eps in
  makeAdminPeers json_Marshal adminServiceEndpoint w serverCred (eps ++ eps')
  = peers
    ++ (remotePeerOf adminServiceEndpoint serverCred (globalIsSSL w)
          <$> filter (λ h, h ∉ addr <$> peers)
                     (firstOccurrences
                        (filter (λ h, h ≠ "") (Host <$> eps'))))
  ∧ ((∀ ep, ep ∈ eps' → Host ep = "" ∨ Host ep ∈ addr <$> peers) →
     makeAdminPeers json_Marshal adminServiceEndpoint w serverCred
                    (eps ++ eps') = peers)
  ∧ (1 ≤ length peers ≤ 1 + length eps)%nat.
Proof.
  intros peers.
  assert (makeAdminPeers json_Marshal adminServiceEndpoint w serverCred
            (eps ++ eps')
          = peers
            ++ (remotePeerOf adminServiceEndpoint serverCred (globalIsSSL w)
                  <$> filter (λ h, h ∉ addr <$> peers)
                             (firstOccurrences
                                (filter (λ h, h ≠ "") (Host <$> eps')))))
    as Hext.
  { unfold peers. rewrite makeAdminPeers_addrs, !makeAdminPeers_shape.
    unfold expectedPeerAddrs.
    rewrite fmap_app, filter_app, app_comm_cons, firstOccurrences_app.
    cbn [firstOccurrences tail app]. rewrite fmap_app. cbn [app].
    do 3 f_equal. apply list_filter_iff. intros h.
    rewrite !elem_of_cons, (list_elem_of_filter (λ y, y ≠ globalMinioAddr w)).
    rewrite firstOccurrences_elem.
    destruct (decide (h = globalMinioAddr w)); tauto. }
  split; [done|]. split.
  - intros Hdup. rewrite Hext.
    rewrite (filter_Forall_none (λ h, h ∉ addr <$> peers)).
    + cbn. by rewrite app_nil_r.
    + apply Forall_forall. intros h Hh Hnin.
      apply firstOccurrences_elem, list_elem_of_filter in Hh as [Hne Hh].
      apply list_elem_of_fmap in Hh as (ep & -> & Hep).
      destruct (Hdup ep Hep); done.
  - unfold peers. rewrite makeAdminPeers_shape. cbn [length].
    rewrite length_fmap. unfold expectedPeerAddrs.
    cbn [firstOccurrences tail].
    pose proof (length_filter (λ y, y ≠ globalMinioAddr w)
                  (firstOccurrences (filter (λ h, h ≠ "") (Host <$> eps)))).
    pose proof (firstOccurrences_length
                  (filter (λ h, h ≠ "") (Host <$> eps))).
    pose proof (length_filter (λ h, h ≠ "") (Host <$> eps)) as Hf.
    rewrite length_fmap in Hf. lia.
Qed.

(** X6. On a directory built by [makeAdminPeers] no aggregator indexes out
    of range, whatever the world at the time of the call; and in a
    single-node deployment [getPeerConfig] asks the local runner only: it
    returns the encoding of [serverConfig], or the error
    [config not present] when none is loaded. *)
Theorem makeAdminPeers_aggregators `{!EqDecision serverConfigV13}
    (zeroServerConfig : serverConfigV13)
    (json_Marshal : serverConfigV13 → list Byte.byte * option error)
    (json_Unmarshal : list Byte.byte → serverConfigV13 + error)
    (adminServiceEndpoint : string)
    (errorCountsRange : list (option error * Z) → list (option error * Z))
    (mapRange : gmap nsParam (list VolumeLockInfo) →
                list (nsParam * list VolumeLockInfo))
    (goroutineOrder : nat → list nat)
    w0 (serverCred : credential) (eps : list url_URL)
    w (bucket prefix : string) (duration : Duration) (cmd : serviceSignal) :
  let peers :=
    makeAdminPeers json_Marshal adminServiceEndpoint w0 serverCred eps in
  listPeerLocksInfo errorCountsRange mapRange w peers bucket prefix duration
  ≠ Panic
  ∧ getPeerConfig zeroServerConfig json_Marshal json_Unmarshal w peers
    ≠ Panic
  ∧ sendServiceCmd goroutineOrder w peers cmd ≠ Panic
  ∧ (globalIsDistXL w = false →
     getPeerConfig zeroServerConfig json_Marshal json_Unmarshal w peers
     = match serverConfig w with
       | None => Err errConfigNotPresent
       | Some c => match json_Marshal c with
                   | (_, Some err) => Err err
                   | (config, None) => Ok config
                   end
       end).
Proof.
  intros peers. unfold peers. rewrite makeAdminPeers_shape.
  set (remote := remotePeerOf _ _ _ <$> _).
  split; [|split; [|split]].
  - unfold listPeerLocksInfo. cbn zeta.
    destruct (reduceErrs _ _ _) as [errCount [e|]]; [|done].
    by case_bool_decide.
  - destruct (globalIsDistXL w) eqn:Hdist.
    + by apply getPeerConfig_dist_no_panic.
    + unfold getPeerConfig. rewrite Hdist. cbn.
      unfold localAdminClient_GetConfig.
      destruct (serverConfig w); [|done].
      by destruct (json_Marshal _) as [? [?|]].
  - unfold sendServiceCmd.
    destruct (foldl _ _ _) as [w1 errs].
    by destruct (invokeServiceCmd _ _ _).
  - intros Hsingle. unfold getPeerConfig. rewrite Hsingle. cbn.
    unfold localAdminClient_GetConfig. by destruct (serverConfig w).
Qed.

(** ** Service commands on the directory *)

Lemma invokeServiceCmd_remote (adminServiceEndpoint : string)
    (serverCred : credential) (isSSL : bool) (host : string) w
    (cmd : serviceSignal) :
  invokeServiceCmd w (remotePeerOf adminServiceEndpoint serverCred isSSL host)
                   cmd
  = (w, match cmd with
        | serviceRestart =>
          rpc_Restart w (adminAuthConfig adminServiceEndpoint serverCred
                                         isSSL host)
        | _ => None
        end).
Proof. by destruct cmd. Qed.

Lemma sendServiceCmd_remote_fold (adminServiceEndpoint : string)
    (serverCred : credential) (isSSL : bool) (hosts : list string) w
    (cmd : serviceSignal) (idxs : list nat) (errs : list (option error)) :
  let outcome (h : string) : option error :=
    match cmd with
    | serviceRestart =>
      rpc_Restart w (adminAuthConfig adminServiceEndpoint serverCred isSSL h)
    | _ => None
    end in
  ∃ errs',
    foldl (sendServiceCmd_remote
             (remotePeerOf adminServiceEndpoint serverCred isSSL <$> hosts)
             cmd) (w, errs) idxs = (w, errs')
    ∧ length errs' = length errs
    ∧ errs' !! 0%nat = errs !! 0%nat
    ∧ (∀ i, i ∉ idxs → errs' !! S i = errs !! S i)
    ∧ (∀ i h, i ∈ idxs → hosts !! i = Some h → (S i < length errs)%nat →
              errs' !! S i = Some (outcome h)).
Proof.
  intros outcome. revert errs.
  induction idxs as [|idx idxs IH]; intros errs.
  - exists errs. split; [done|]. split; [done|]. split; [done|].
    split; [done|]. by intros i h ?%not_elem_of_nil.
  - cbn [foldl]. unfold sendServiceCmd_remote at 2. cbn [fst snd].
    rewrite list_lookup_fmap.
    destruct (hosts !! idx) as [h0|] eqn:Hidx; cbn [fmap option_fmap option_map].
    + rewrite invokeServiceCmd_remote. fold (outcome h0).
      destruct (IH (<[S idx := outcome h0]> errs))
        as (errs' & Hfold & Hlen & H0 & Hout & Hin).
      rewrite length_insert in Hlen, Hin.
      exists errs'. split; [done|]. split; [done|]. split.
      { rewrite H0. by rewrite list_lookup_insert_ne. }
      split.
      * intros i [Hne Hni]%not_elem_of_cons.
        rewrite Hout by done. rewrite list_lookup_insert_ne by lia. done.
      * intros i h Hi Hh Hbound.
        destruct (decide (i ∈ idxs)) as [Hmem|Hnmem]; [by eapply Hin|].
        apply elem_of_cons in Hi as [->|]; [|done].
        rewrite Hout by done. rewrite list_lookup_insert_eq by done.
        by simplify_eq.
    + destruct (IH errs) as (errs' & Hfold & Hlen & H0 & Hout & Hin).
      assert ((w, errs).1 = w) as Hw by done.
      exists errs'. split; [by destruct errs'|]. split; [done|].
      split; [done|]. split.
      * intros i [Hne Hni]%not_elem_of_cons. by apply Hout.
      * intros i h Hi Hh Hbound.
        apply elem_of_cons in Hi as [->|Hi]; [by simplify_eq|].
        by eapply Hin.
Qed.

(** X7. On a directory built by [makeAdminPeers], [sendServiceCmd] with
    [serviceRestart] leaves exactly one restart signal queued for the local
    process, whatever the remote calls return and in whatever order they
    run; the outcome of each remote call ends in the slot of its peer.  With
    any other signal nothing is called and nothing changes. *)
Theorem sendServiceCmd_on_directory
    (json_Marshal : serverConfigV13 → list Byte.byte * option error)
    (adminServiceEndpoint : string) (goroutineOrder : nat → list nat)
    w0 (serverCred : credential) (eps : list url_URL) w
    (cmd : serviceSignal) :
  schedules goroutineOrder →
  let peers :=
    makeAdminPeers json_Marshal adminServiceEndpoint w0 serverCred eps in
  ∃ errs,
    sendServiceCmd goroutineOrder w peers cmd
    = Ok (match cmd with
          | serviceRestart => send_serviceSignal w serviceRestart
          | _ => w
          end, errs)
    ∧ length errs = length peers
    ∧ errs !! 0%nat = Some None
    ∧ ∀ i p, peers !! S i = Some p →
             errs !! S i
             = Some match cmd with
                    | serviceRestart =>
                      rpc_Restart w (adminAuthConfig adminServiceEndpoint
                                       serverCred (globalIsSSL w0) (addr p))
                    | _ => None
                    end.
Proof.
  intros Hsched peers. unfold peers. rewrite makeAdminPeers_shape.
  set (hosts := tail (expectedPeerAddrs (globalMinioAddr w0) (Host <$> eps))).
  unfold sendServiceCmd.
  match goal with
  | |- context [foldl _ (w, ?errs) ?idxs] =>
    destruct (sendServiceCmd_remote_fold adminServiceEndpoint serverCred
                (globalIsSSL w0) hosts w cmd idxs errs)
      as (errs' & -> & Hlen & H0 & Hout & Hin)
  end.
  rewrite length_replicate in Hlen, Hin. cbn [length] in Hlen, Hin.
  rewrite length_fmap in Hlen, Hin.
  exists (<[0%nat := None]> errs').
  split; [by destruct cmd|]. split.
  { rewrite length_insert. cbn [length]. by rewrite length_fmap. }
  split; [apply list_lookup_insert_eq; lia|].
  intros i p Hp. cbn [lookup list_lookup] in Hp.
  apply list_lookup_fmap_Some in Hp as (h & -> & Hh).
  rewrite list_lookup_insert_ne by done. cbn [addr remotePeerOf].
  apply (Hin i h); [|done|].
  - rewrite (Hsched (length hosts)).
    apply elem_of_seq. apply lookup_lt_Some in Hh. lia.
  - apply lookup_lt_Some in Hh. lia.
Qed.

End Directory.

Section Aggregators.

Context {serverConfigV13 : Type}.

Implicit Types (w : World (serverConfigV13 := serverConfigV13)).
Implicit Types
  (peers : list (adminPeer (serverConfigV13 := serverConfigV13))).

(** ** Lock records come out grouped *)

Lemma paramLockMap_append_groups (m : gmap nsParam (list VolumeLockInfo))
    (l : list VolumeLockInfo) (lockInfo : VolumeLockInfo) :
  (∀ k, m !! k = if decide (filter (λ x, lockParam x = k) l = [])
                 then None else Some (filter (λ x, lockParam x = k) l)) →
  ∀ k, paramLockMap_append m lockInfo !! k
       = if decide (filter (λ x, lockParam x = k) (l ++ [lockInfo]) = [])
         then None
         else Some (filter (λ x, lockParam x = k) (l ++ [lockInfo])).
Proof.
  intros Hm k. unfold paramLockMap_append. fold (lockParam lockInfo).
  rewrite filter_app. destruct (decide (lockParam lockInfo = k)) as [<-|Hne].
  - rewrite lookup_insert_eq, Hm, filter_cons_True, filter_nil by done.
    destruct (decide (filter _ l ++ [lockInfo] = [])) as [Heq|_].
    { by apply app_eq_nil in Heq as [_ ?]. }
    f_equal. by destruct (decide (filter _ l = [])) as [->|].
  - rewrite lookup_insert_ne, Hm, filter_cons_False, filter_nil by done.
    by rewrite app_nil_r.
Qed.

Lemma groupLocks_lookup (allLocks : list (list VolumeLockInfo)) (k : nsParam) :
  groupLocks allLocks !! k
  = if decide (filter (λ x, lockParam x = k) (concat allLocks) = [])
    then None
    else Some (filter (λ x, lockParam x = k) (concat allLocks)).
Proof.
  unfold groupLocks.
  assert (∀ nodeLocks m l,
            (∀ k, m !! k
                  = if decide (filter (λ x, lockParam x = k) l = [])
                    then None else Some (filter (λ x, lockParam x = k) l)) →
            ∀ k, foldl paramLockMap_append m nodeLocks !! k
                 = if decide (filter (λ x, lockParam x = k) (l ++ nodeLocks)
                              = [])
                   then None
                   else Some (filter (λ x, lockParam x = k) (l ++ nodeLocks)))
    as Hinner.
  { induction nodeLocks as [|x nodeLocks IH]; intros m l Hm k'; cbn [foldl].
    - by rewrite app_nil_r.
    - rewrite (cons_middle x l nodeLocks), app_assoc.
      apply IH. by apply paramLockMap_append_groups. }
  assert (∀ lists m l,
            (∀ k, m !! k
                  = if decide (filter (λ x, lockParam x = k) l = [])
                    then None else Some (filter (λ x, lockParam x = k) l)) →
            ∀ k, foldl (λ m nodeLocks, foldl paramLockMap_append m nodeLocks)
                       m lists !! k
                 = if decide (filter (λ x, lockParam x = k)
                                     (l ++ concat lists) = [])
                   then None
                   else Some (filter (λ x, lockParam x = k)
                                     (l ++ concat lists)))
    as Houter.
  { induction lists as [|nodeLocks lists IH]; intros m l Hm k'; cbn [foldl].
    - cbn. by rewrite app_nil_r.
    - cbn [concat]. rewrite app_assoc. apply IH. by apply Hinner. }
  apply (Houter allLocks ∅ []). intros k'. by rewrite lookup_empty.
Qed.

(** X8. Whenever [listPeerLocksInfo] succeeds, its result is the
    concatenation of one non-empty group per (bucket, object) pair that
    occurs among the gathered records; each group holds all records of its
    pair, in the order of the peers and, within a peer, in the order
    returned.  No record is lost or duplicated. *)
Theorem listPeerLocksInfo_grouped
    (errorCountsRange : list (option error * Z) → list (option error * Z))
    (mapRange : gmap nsParam (list VolumeLockInfo) →
                list (nsParam * list VolumeLockInfo))
    w peers (bucket prefix : string) (duration : Duration)
    (locks : list VolumeLockInfo) :
  rangesOverMap mapRange →
  listPeerLocksInfo errorCountsRange mapRange w peers bucket prefix duration
  = Ok locks →
  let records :=
    concat ((listPeerLocksInfo_gather w peers bucket prefix duration).*1) in
  ∃ groups : list (nsParam * list VolumeLockInfo),
    locks = concat (groups.*2)
    ∧ NoDup (groups.*1)
    ∧ (∀ k g, (k, g) ∈ groups
              ↔ g ≠ [] ∧ g = filter (λ x, lockParam x = k) records)
    ∧ locks ≡ₚ records.
Proof.
  intros Hrange Hok records.
  destruct peers as [|localPeer remote]; [done|].
  unfold listPeerLocksInfo in Hok. cbn zeta in Hok.
  destruct (reduceErrs _ _ _) as [errCount [e|]];
    [by case_bool_decide|].
  injection Hok as <-.
  pose (allLocks := (listPeerLocksInfo_gather w (localPeer :: remote) bucket
                                              prefix duration).*1).
  change (flattenLocks mapRange (groupLocks _))
    with (flattenLocks mapRange (groupLocks allLocks)).
  change records with (concat allLocks). clear records.
  exists (mapRange (groupLocks allLocks)).
  split; [|split; [|split]].
  - unfold flattenLocks. by rewrite (foldl_app_concat snd).
  - rewrite (Hrange _). apply NoDup_fst_map_to_list.
  - intros k g. rewrite (Hrange _), elem_of_map_to_list, groupLocks_lookup.
    destruct (decide (filter _ (concat allLocks) = [])) as [Hnil|Hne].
    + split; [done|]. intros [Hg ->]. done.
    + split; [by intros [= <-]|]. by intros [_ ->].
  - by apply flattenLocks_perm.
Qed.

(** ** Uptime: what does not matter *)

(** X9. The result of [getPeerUptimes] depends neither on how [sort.Sort]
    arranges equal uptimes and failed entries nor on the order of the
    peers. *)
Theorem getPeerUptimes_order_independent
    (sort1 sort2 : list uptimeEntry → list uptimeEntry) w peers peers' :
  sortsUptimes sort1 → sortsUptimes sort2 → peers ≡ₚ peers' →
  getPeerUptimes sort1 w peers = getPeerUptimes sort2 w peers'.
Proof.
  intros Hs1 Hs2 Hperm.
  destruct (globalIsDistXL w) eqn:Hdist;
    [|by unfold getPeerUptimes; rewrite Hdist].
  destruct (getPeerUptimes_dist sort1 w peers Hs1 Hdist)
    as (Hlow & Hkth & Hnil & Hone).
  destruct (getPeerUptimes_dist sort2 w peers' Hs2 Hdist)
    as (Hlow' & Hkth' & Hnil' & Hone').
  assert (validUptimes (getPeerUptimes_gather w peers)
          ≡ₚ validUptimes (getPeerUptimes_gather w peers')) as Hvalid.
  { apply validUptimes_perm. unfold getPeerUptimes_gather. by rewrite Hperm. }
  assert (len peers' = len peers) as Hn by (unfold len; by rewrite Hperm).
  rewrite Hn in Hlow', Hkth', Hnil', Hone'.
  set (valid := validUptimes (getPeerUptimes_gather w peers)) in *.
  set (valid' := validUptimes (getPeerUptimes_gather w peers')) in *.
  assert (len valid' = len valid) as Hv by (unfold len; by rewrite Hvalid).
  rewrite Hv in Hlow', Hkth'.
  set (q := uptimeReadQuorum (len peers)) in *.
  assert (0 ≤ q) as Hq by (apply uptimeReadQuorum_nonneg; unfold len; lia).
  destruct (decide (len valid < q)) as [Hfew|Henough].
  { by rewrite Hlow, Hlow'. }
  destruct (decide (q = 0)) as [Hq0|Hq1].
  - destruct valid as [|v valid0] eqn:Hvalid0.
    + apply Permutation_nil_l in Hvalid. by rewrite Hnil, Hnil'.
    + destruct Hone as (u & -> & Hu); [done|done|].
      destruct Hone' as (u' & -> & Hu'); [done| |].
      { intros Hnil''. rewrite Hnil'' in Hvalid.
        by apply Permutation_nil_r in Hvalid. }
      f_equal. apply (isKthSmallest_perm _ _ _ _ Hvalid) in Hu.
      by eapply isKthSmallest_unique.
  - destruct Hkth as (u & -> & Hu); [lia|].
    destruct Hkth' as (u' & -> & Hu'); [lia|].
    f_equal. apply (isKthSmallest_perm _ _ _ _ Hvalid) in Hu.
    by eapply isKthSmallest_unique.
Qed.

(** X10. In a distributed deployment with at most one peer the read quorum
    is zero and [getPeerUptimes] cannot fail: it returns the peer's uptime
    when its call succeeded, and a zero duration with no error when the
    call failed or there is no peer. *)
Theorem getPeerUptimes_at_most_one_peer
    (sort_Sort : list uptimeEntry → list uptimeEntry) w
    (p : adminPeer (serverConfigV13 := serverConfigV13)) :
  sortsUptimes sort_Sort → globalIsDistXL w = true →
  getPeerUptimes sort_Sort w []  = Ok 0
  ∧ getPeerUptimes sort_Sort w [p]
    = Ok match Uptime (cmdRunner p) w with
         | (uptime, None) => uptime
         | (_, Some _) => 0
         end.
Proof.
  intros Hsort Hdist. split.
  - destruct (getPeerUptimes_dist sort_Sort w [] Hsort Hdist)
      as (_ & _ & Hnil & _). by apply Hnil.
  - destruct (getPeerUptimes_dist sort_Sort w [p] Hsort Hdist)
      as (_ & _ & Hnil & Hone).
    unfold getPeerUptimes_gather in Hnil, Hone. cbn [fmap list_fmap] in *.
    destruct (Uptime (cmdRunner p) w) as [uptime [err|]].
    + by apply Hnil.
    + destruct Hone as (u & -> & Hin & _); [done|done|].
      f_equal. cbn in Hin. by apply list_elem_of_singleton in Hin.
Qed.

(** ** The methods [sort.Sort] is given *)

Lemma uptimeSlice_at_Some (ts : list uptimeEntry) (i : Z) (a : uptimeEntry) :
  uptimeSlice_at ts i = Some a ↔ 0 ≤ i ∧ ts !! Z.to_nat i = Some a.
Proof.
  unfold uptimeSlice_at. case_bool_decide; [tauto|].
  split; [done|]. intros [? _]. lia.
Qed.

Lemma list_swap_head_Permutation {A : Type} (l : list A) (j : nat)
    (a b : A) :
  l !! j = Some b → b :: <[j := a]> l ≡ₚ a :: l.
Proof.
  revert j. induction l as [|y l IH]; intros [|j] Hj; try done.
  - cbn in Hj. simplify_eq. cbn. apply Permutation_swap.
  - cbn in Hj. cbn.
    etrans; [apply Permutation_swap|].
    etrans; [apply Permutation_skip, (IH j Hj)|].
    apply Permutation_swap.
Qed.

Lemma list_swap_Permutation {A : Type} (l : list A) (i j : nat) (a b : A) :
  l !! i = Some a → l !! j = Some b → <[j := a]> (<[i := b]> l) ≡ₚ l.
Proof.
  revert i j. induction l as [|y l IH]; intros [|i] [|j] Hi Hj; try done;
    cbn in Hi, Hj; cbn.
  - by simplify_eq.
  - simplify_eq. by apply list_swap_head_Permutation.
  - simplify_eq. by apply list_swap_head_Permutation.
  - by rewrite (IH i j).
Qed.

Lemma list_swap_back {A : Type} (l : list A) (i j : nat) (a b : A) :
  l !! i = Some a → l !! j = Some b →
  <[j := b]> (<[i := a]> (<[j := a]> (<[i := b]> l))) = l.
Proof.
  intros Hi Hj. apply list_eq. intros k.
  pose proof (lookup_lt_Some _ _ _ Hi). pose proof (lookup_lt_Some _ _ _ Hj).
  destruct (decide (k = j)) as [->|Hkj].
  - rewrite list_lookup_insert_eq by (rewrite !length_insert; lia). done.
  - rewrite list_lookup_insert_ne by done.
    destruct (decide (k = i)) as [->|Hki].
    + rewrite list_lookup_insert_eq by (rewrite !length_insert; lia). done.
    + by rewrite !list_lookup_insert_ne by done.
Qed.

(** X11. [Swap] panics exactly when an index is out of range; otherwise it
    exchanges the two entries, keeps the length and the contents of the
    slice, and is undone by a second [Swap].  [Less] is a strict order whose
    incomparable entries are those of equal uptime. *)
Theorem uptimeSlice_sort_interface (ts : list uptimeEntry) (i j : Z) :
  (uptimeSlice_Swap ts i j = None
   ↔ ¬ (0 ≤ i < uptimeSlice_Len ts ∧ 0 ≤ j < uptimeSlice_Len ts))
  ∧ (∀ ts', uptimeSlice_Swap ts i j = Some ts' →
            uptimeSlice_at ts' i = uptimeSlice_at ts j
            ∧ uptimeSlice_at ts' j = uptimeSlice_at ts i
            ∧ uptimeSlice_Len ts' = uptimeSlice_Len ts
            ∧ ts' ≡ₚ ts
            ∧ uptimeSlice_Swap ts' i j = Some ts)
  ∧ (∀ a, uptimeSlice_Less a a = false)
  ∧ (∀ a b c, uptimeSlice_Less a b = true → uptimeSlice_Less b c = true →
              uptimeSlice_Less a c = true)
  ∧ (∀ a b, uptimeSlice_Less a b = false ∧ uptimeSlice_Less b a = false
            ↔ u_uptime a = u_uptime b).
Proof.
  assert (∀ k, is_Some (uptimeSlice_at ts k) ↔ 0 ≤ k < uptimeSlice_Len ts)
    as Hrange.
  { intros k. unfold uptimeSlice_at, uptimeSlice_Len, len.
    case_bool_decide.
    - rewrite lookup_lt_is_Some. lia.
    - split; [by intros [? ?]|lia]. }
  split; [|split; [|split; [|split]]].
  - rewrite <- !Hrange. unfold uptimeSlice_Swap.
    destruct (uptimeSlice_at ts i) as [a|], (uptimeSlice_at ts j) as [b|].
    + split; [done|]. intros Hout. destruct Hout. split; by eexists.
    + split; [|done]. intros _ [_ [b Hb]]. done.
    + split; [|done]. intros _ [[a Ha] _]. done.
    + split; [|done]. intros _ [[a Ha] _]. done.
  - intros ts' Hswap. unfold uptimeSlice_Swap in Hswap.
    destruct (uptimeSlice_at ts i) as [a|] eqn:Hi; [|done].
    destruct (uptimeSlice_at ts j) as [b|] eqn:Hj; [|done].
    injection Hswap as <-.
    apply uptimeSlice_at_Some in Hi as [Hi0 Hi].
    apply uptimeSlice_at_Some in Hj as [Hj0 Hj].
    pose proof (lookup_lt_Some _ _ _ Hi) as Hilt.
    pose proof (lookup_lt_Some _ _ _ Hj) as Hjlt.
    assert (uptimeSlice_at (<[Z.to_nat j := a]> (<[Z.to_nat i := b]> ts)) j
            = Some a) as Hj'.
    { apply uptimeSlice_at_Some. split; [done|].
      apply list_lookup_insert_eq. rewrite length_insert. lia. }
    assert (uptimeSlice_at (<[Z.to_nat j := a]> (<[Z.to_nat i := b]> ts)) i
            = Some b) as Hi'.
    { apply uptimeSlice_at_Some. split; [done|].
      destruct (decide (Z.to_nat j = Z.to_nat i)) as [Heq|Hne].
      - rewrite Heq in *. simplify_eq.
        apply list_lookup_insert_eq. rewrite length_insert. lia.
      - rewrite list_lookup_insert_ne by done.
        by apply list_lookup_insert_eq. }
    split; [|split; [|split; [|split]]].
    + done.
    + done.
    + unfold uptimeSlice_Len, len. by rewrite !length_insert.
    + by apply list_swap_Permutation.
    + unfold uptimeSlice_Swap. rewrite Hi', Hj'. f_equal.
      by apply list_swap_back.
  - intros a. unfold uptimeSlice_Less. apply bool_decide_eq_false. lia.
  - intros a b c. unfold uptimeSlice_Less.
    rewrite !bool_decide_eq_true. lia.
  - intros a b. unfold uptimeSlice_Less.
    rewrite !bool_decide_eq_false. lia.
Qed.

End Aggregators.

(** * The further properties at work on the example cluster *)

Lemma Cluster_sort'_sorts : sortsUptimes Cluster.sort'.
Proof.
  intros l. unfold Cluster.sort'. split.
  - by rewrite merge_sort_Permutation, reverse_Permutation.
  - apply (Sorted_weaken Cluster.uptimeLe).
    + intros a b Hab. unfold Cluster.uptimeLe in Hab.
      unfold uptimeSlice_Less. apply bool_decide_eq_false. lia.
    + apply Sorted_merge_sort. intros a b. unfold Cluster.uptimeLe. lia.
Qed.

Lemma Cluster_order_schedules : schedules Cluster.order.
Proof. intros n. apply reverse_Permutation. Qed.

Lemma getValidServerConfig_majority_witness :
  length [None; None; None; @None error] = length ["A"; "B"; "A"; "A"]
  ∧ getValidServerConfig "" ["A"; "B"; "A"; "A"] [None; None; None; None]
    = Ok "A"
  ∧ getValidServerConfig "" ["A"; "B"; "A"; "A"] [None; None; None; None]
    ≠ Ok "B".
Proof.
  destruct (getValidServerConfig_majority
              "" ["A"; "B"; "A"; "A"] [None; None; None; None] eq_refl)
    as (Hiff & _ & _).
  split; [reflexivity|]. split.
  - apply Hiff. by vm_compute.
  - intros HB. apply Hiff in HB. by vm_compute in HB.
Defined.

Lemma getValidServerConfig_count_invariants_witness :
  length [None; Some (rpcError "connection refused"); None; None; None]
  = length ["A"; "A"; "B"; "A"; "B"]
  ∧ (4 ≤ length ["A"; "A"; "B"; "A"; "B"])%nat
  ∧ ∃ configCounter,
      foldl (getValidServerConfig_count_step
               "" ["A"; "A"; "B"; "A"; "B"]
               [None; Some (rpcError "connection refused"); None; None; None])
            (Some (replicate 5 0)) (seq 0 4)
      = Some configCounter
      ∧ nonZeroCounters (take 4 configCounter) = 2%nat
      ∧ sumCounters (take 4 configCounter) = 3.
Proof.
  split; [reflexivity|]. split; [cbn; lia|].
  destruct (getValidServerConfig_count_invariants
              "" ["A"; "A"; "B"; "A"; "B"]
              [None; Some (rpcError "connection refused"); None; None; None]
              4 eq_refl ltac:(cbn; lia))
    as (cc & Hcc & Hnz & Hsum & _).
  exists cc. split; [exact Hcc|]. split; [exact Hnz|exact Hsum].
Defined.

Lemma getPeerConfig_distributed_witness :
  globalIsDistXL Cluster.healthy = true
  ∧ getPeerConfig "" Cluster.marshal Cluster.unmarshal Cluster.healthy
                  (Cluster.peers Cluster.healthy)
    = Ok (String.list_byte_of_string "A").
Proof.
  split; [reflexivity|].
  destruct (getPeerConfig_distributed
              "" Cluster.marshal Cluster.unmarshal Cluster.healthy
              (Cluster.peers Cluster.healthy) eq_refl) as [_ Hdecoded].
  destruct Hdecoded as [Hwin _].
  - intros i b Hi.
    do 5 (destruct i as [|i];
          [vm_compute in Hi; injection Hi as <-; eexists; reflexivity|]).
    vm_compute in Hi. discriminate Hi.
  - apply (Hwin "A"). by vm_compute.
Defined.

Lemma sendServiceCmd_on_directory_witness :
  schedules Cluster.order
  ∧ ∃ errs,
      sendServiceCmd Cluster.order Cluster.partitioned
                     (Cluster.peers Cluster.healthy) serviceRestart
      = Ok (send_serviceSignal Cluster.partitioned serviceRestart, errs)
      ∧ errs !! 0%nat = Some None
      ∧ errs !! 1%nat = Some (Some (rpcError "connection refused"))
      ∧ errs !! 4%nat = Some None.
Proof.
  split; [exact Cluster_order_schedules|].
  destruct (sendServiceCmd_on_directory
              Cluster.marshal Cluster.endpoint Cluster.order Cluster.healthy
              Cluster.cred Cluster.eps Cluster.partitioned serviceRestart
              Cluster_order_schedules)
    as (errs & Hsend & _ & H0 & Hremote).
  exists errs. split; [exact Hsend|]. split; [exact H0|]. split.
  - apply (Hremote 0%nat (remotePeerOf Cluster.endpoint Cluster.cred false
                                       "node2:9000")). reflexivity.
  - apply (Hremote 3%nat (remotePeerOf Cluster.endpoint Cluster.cred false
                                       "node5:9000")). reflexivity.
Defined.

Lemma listPeerLocksInfo_grouped_witness :
  rangesOverMap Cluster.mapRange
  ∧ ∃ locks (groups : list (nsParam * list VolumeLockInfo)),
      listPeerLocksInfo Cluster.errorCountsRange Cluster.mapRange
                        Cluster.healthy
                        (Cluster.peers Cluster.healthy) "bucket" "" 0
      = Ok locks
      ∧ locks = concat (groups.*2) ∧ NoDup (groups.*1)
      ∧ length locks = 6%nat.
Proof.
  split; [exact Cluster_mapRange_ranges|].
  destruct (listPeerLocksInfo Cluster.errorCountsRange Cluster.mapRange
                              Cluster.healthy
                              (Cluster.peers Cluster.healthy) "bucket" "" 0)
    as [locks| |] eqn:Hlocks; [|by vm_compute in Hlocks..].
  destruct (listPeerLocksInfo_grouped
              Cluster.errorCountsRange Cluster.mapRange Cluster.healthy
              (Cluster.peers Cluster.healthy)
              "bucket" "" 0 locks Cluster_mapRange_ranges Hlocks)
    as (groups & Hconcat & Hnodup & _ & Hperm).
  exists locks, groups. split; [reflexivity|]. split; [exact Hconcat|].
  split; [exact Hnodup|]. rewrite Hperm. reflexivity.
Defined.

Lemma getPeerUptimes_order_independent_witness :
  sortsUptimes Cluster.sort ∧ sortsUptimes Cluster.sort'
  ∧ Cluster.peers Cluster.partitioned
    ≡ₚ reverse (Cluster.peers Cluster.partitioned)
  ∧ getPeerUptimes Cluster.sort Cluster.partitioned
                   (Cluster.peers Cluster.partitioned)
    = getPeerUptimes Cluster.sort' Cluster.partitioned
                     (reverse (Cluster.peers Cluster.partitioned)).
Proof.
  assert (Cluster.peers Cluster.partitioned
          ≡ₚ reverse (Cluster.peers Cluster.partitioned)) as Hperm
    by (symmetry; apply reverse_Permutation).
  split; [exact Cluster_sort_sorts|]. split; [exact Cluster_sort'_sorts|].
  split; [exact Hperm|].
  exact (getPeerUptimes_order_independent
           Cluster.sort Cluster.sort' Cluster.partitioned _ _
           Cluster_sort_sorts Cluster_sort'_sorts Hperm).
Defined.

Lemma getPeerUptimes_at_most_one_peer_witness :
  sortsUptimes Cluster.sort
  ∧ globalIsDistXL (Cluster.booting true) = true
  ∧ getPeerUptimes Cluster.sort (Cluster.booting true) [Cluster.localPeer]
    = Ok 0
  ∧ getPeerUptimes Cluster.sort Cluster.healthy [Cluster.localPeer]
    = Ok (10 * Minute).
Proof.
  split; [exact Cluster_sort_sorts|]. split; [reflexivity|]. split.
  - exact (proj2 (getPeerUptimes_at_most_one_peer
                    Cluster.sort (Cluster.booting true) Cluster.localPeer
                    Cluster_sort_sorts eq_refl)).
  - exact (proj2 (getPeerUptimes_at_most_one_peer
                    Cluster.sort Cluster.healthy Cluster.localPeer
                    Cluster_sort_sorts eq_refl)).
Defined.
